(** * Etcher shared utilities: [lib/shared/utils.js]

    A shallow embedding of the two exported functions of
    [lib/shared/utils.js],

      - [flatStartCase]: rename every key to start case (keeping
        environment-variable style keys) and flatten nested mappings into
        one mapping keyed by space-joined key paths;
      - [hideAbsolutePathsInObject]: replace every string leaf that is an
        absolute path by its basename,

    together with the library calls they are made of ([deep-map-keys],
    [flat], [lodash], [lodash-deep], Node's [path]), and the properties of
    the two functions stated in the specification. *)

From Stdlib Require Import List Bool Arith ZArith NArith Lia.
From Stdlib Require Import Ascii String.
Import ListNotations.

Set Warnings "-register-all".

Local Open Scope string_scope.
Local Open Scope list_scope.

(** ** JavaScript values *)

(** The JSON-like values the two functions are applied to.  Numbers are
    carried around and never inspected by this code; they are represented
    by integers.  A mapping is the list of its own enumerable properties
    in the order in which [Object.keys] and [for..in] enumerate them. *)
Unset Elimination Schemes.
Inductive value : Type :=
| VUndefined
| VNull
| VBool (b : bool)
| VNum (n : Z)
| VStr (s : string)
| VArr (elems : list value)
| VObj (props : list (string * value)).
Set Elimination Schemes.

Definition object : Type := list (string * value).

(** Induction over values, with the induction hypothesis available for
    every element of a sequence and every property value of a mapping. *)
Section ValueInd.
Variable P : value -> Prop.
Hypothesis Hundef : P VUndefined.
Hypothesis Hnull : P VNull.
Hypothesis Hbool : forall b, P (VBool b).
Hypothesis Hnum : forall n, P (VNum n).
Hypothesis Hstr : forall s, P (VStr s).
Hypothesis Harr : forall l, Forall P l -> P (VArr l).
Hypothesis Hobj : forall ps, Forall (fun kv => P (snd kv)) ps -> P (VObj ps).

Fixpoint value_ind (v : value) : P v :=
  match v as v0 return P v0 with
  | VUndefined => Hundef
  | VNull => Hnull
  | VBool b => Hbool b
  | VNum n => Hnum n
  | VStr s => Hstr s
  | VArr l =>
      Harr l ((fix elems (l : list value) : Forall P l :=
                 match l with
                 | [] => Forall_nil _
                 | x :: r => Forall_cons x (value_ind x) (elems r)
                 end) l)
  | VObj ps =>
      Hobj ps ((fix props (ps : object) : Forall (fun kv => P (snd kv)) ps :=
                  match ps with
                  | [] => Forall_nil _
                  | kv :: r => Forall_cons kv (value_ind (snd kv)) (props r)
                  end) ps)
  end.
End ValueInd.

(** lodash's type tests, on JSON-like values. *)
Definition isUndefined (v : value) : bool :=
  match v with VUndefined => true | _ => false end.

Definition isArray (v : value) : bool :=
  match v with VArr _ => true | _ => false end.

(** [_.isObject] holds of arrays and of mappings, not of [null]. *)
Definition isObject (v : value) : bool :=
  match v with VArr _ | VObj _ => true | _ => false end.

Definition isString (v : value) : bool :=
  match v with VStr _ => true | _ => false end.

(** The non-structural scalars: string, number, boolean and null. *)
Definition is_scalar (v : value) : bool :=
  match v with VNull | VBool _ | VNum _ | VStr _ => true | _ => false end.

(** ** Property stores *)

Module Obj.

(** Characters as code points. *)
Definition code (c : ascii) : N := N_of_ascii c.

Definition is_digit (c : ascii) : bool :=
  (48 <=? code c)%N && (code c <=? 57)%N.

Fixpoint digits_value (acc : N) (s : string) : option N :=
  match s with
  | EmptyString => Some acc
  | String c r =>
      if is_digit c then digits_value (acc * 10 + (code c - 48))%N r
      else None
  end.

(** A property key is an array index when it is the canonical decimal
    form of an integer below [2^32 - 1]. *)
Definition array_index (k : string) : option N :=
  match k with
  | EmptyString => None
  | String c r =>
      if (code c =? 48)%N && negb (String.eqb r "") then None
      else match digits_value 0%N k with
           | Some n => if (n <? 4294967295)%N then Some n else None
           | None => None
           end
  end.

(** [precedes k k'] holds when a property created under key [k] is
    enumerated before an existing property [k']: array indices come
    first, in ascending order, and the other keys follow in creation
    order. *)
Definition precedes (k k' : string) : bool :=
  match array_index k, array_index k' with
  | Some n, Some m => (n <? m)%N
  | Some _, None => true
  | None, _ => false
  end.

Fixpoint get (k : string) (o : object) : option value :=
  match o with
  | [] => None
  | (k', v) :: r => if String.eqb k k' then Some v else get k r
  end.

Definition keys (o : object) : list string := map fst o.

Definition has (k : string) (o : object) : bool :=
  existsb (String.eqb k) (keys o).

(** Overwrite the value of an existing property; its place in the
    enumeration order is kept. *)
Fixpoint replace (k : string) (v : value) (o : object) : object :=
  match o with
  | [] => []
  | (k', v') :: r =>
      if String.eqb k k' then (k, v) :: r else (k', v') :: replace k v r
  end.

(** Create a property. *)
Fixpoint create (k : string) (v : value) (o : object) : object :=
  match o with
  | [] => [(k, v)]
  | (k', v') :: r =>
      if precedes k k' then (k, v) :: o else (k', v') :: create k v r
  end.

(** The assignment [o[k] = v]. *)
Definition set (k : string) (v : value) (o : object) : object :=
  if has k o then replace k v o else create k v o.

(** Assign a list of properties in turn. *)
Definition assign (src : object) (dst : object) : object :=
  fold_left (fun acc kv => set (fst kv) (snd kv) acc) src dst.

(** No key occurs twice. *)
Fixpoint distinct (l : list string) : bool :=
  match l with
  | [] => true
  | k :: r => negb (existsb (String.eqb k) r) && distinct r
  end.

(** The keys are in enumeration order. *)
Fixpoint ordered (l : list string) : bool :=
  match l with
  | [] => true
  | k :: r => forallb (fun k' => negb (precedes k' k)) r && ordered r
  end.

Definition wf (o : object) : bool := distinct (keys o) && ordered (keys o).

End Obj.

(** A value is well formed when every mapping in it, at any depth, is a
    property store as JavaScript has them: distinct keys, in enumeration
    order. *)
Fixpoint wf_value (v : value) : bool :=
  match v with
  | VArr l => forallb wf_value l
  | VObj ps => Obj.wf ps && forallb (fun kv => wf_value (snd kv)) ps
  | _ => true
  end.

(** ** The key-transformation flattener *)

(** *** Results and exceptions *)

(** The one exception this code can throw. *)
Inductive error : Type := TypeError.

(** What a call gives: a value, or an exception thrown. *)
Inductive result (A : Type) : Type :=
| Ok (a : A)
| Throw (e : error).

Arguments Ok {A} a.
Arguments Throw {A} e.

Definition bind {A B : Type} (r : result A) (k : A -> result B) : result B :=
  match r with
  | Ok a => k a
  | Throw e => Throw e
  end.

Definition result_map {A B : Type} (f : A -> B) (r : result A) : result B :=
  bind r (fun a => Ok (f a)).

(** A loop over a sequence that stops at the first exception. *)
Fixpoint mapM {A B : Type} (f : A -> result B) (l : list A) : result (list B) :=
  match l with
  | [] => Ok []
  | a :: r => bind (f a) (fun b => bind (mapM f r) (fun bs => Ok (b :: bs)))
  end.

(** *** [deep-map-keys] *)

(** The call [obj.hasOwnProperty(key)].  The method is looked up on
    [obj] itself: a mapping that has an own property named
    [hasOwnProperty] shadows the method of [Object.prototype] with the
    value of that property, which in a JSON-like value is never a
    function, and calling it throws a [TypeError]. *)
Definition hasOwnProperty (obj : object) (key : string) : result bool :=
  if Obj.has "hasOwnProperty" obj then Throw TypeError
  else Ok (Obj.has key obj).

(** [deepMapKeys(object, mapFn)] of the [deep-map-keys] package: a copy of
    the value in which every key of every mapping, also of the mappings
    held in sequences, is replaced by [mapFn key].  [mapObject] runs
    over the keys of the mapping, guards each one with
    [obj.hasOwnProperty(key)], and assigns the renamed properties one
    after the other to a fresh mapping, so that of two keys mapped to
    the same name the later one overwrites the earlier one. *)
Fixpoint deepMapKeys (mapFn : string -> string) (v : value) : result value :=
  match v with
  | VArr arr => result_map VArr (mapM (deepMapKeys mapFn) arr)
  | VObj obj =>
      result_map VObj
        (fold_left
           (fun res kv =>
              bind res (fun result =>
              bind (hasOwnProperty obj (fst kv)) (fun own =>
              if own
              then bind (deepMapKeys mapFn (snd kv)) (fun x =>
                   Ok (Obj.set (mapFn (fst kv)) x result))
              else Ok result)))
           obj (Ok []))
  | _ => Ok v
  end.

(** [flatten(target, { delimiter: ' ', safe: true })] of the [flat]
    package. *)
Module Flat.

Definition delimiter : string := " ".

(** [prev ? prev + delimiter + key : key]: the empty string is falsy,
    as is the absent [prev] of the outermost call. *)
Definition newKey (prev key : string) : string :=
  if String.eqb prev "" then key else prev ++ delimiter ++ key.

(** One iteration of the loop of [step]: a value that is a mapping with
    at least one property is descended into, with [newKey] as the new
    prefix; anything else, a sequence included ([safe]), is stored in
    the output under [newKey]. *)
Fixpoint visit (prev key : string) (v : value) (output : object)
  {struct v} : object :=
  match v with
  | VObj ((_ :: _) as props) =>
      fold_left
        (fun out kv => visit (newKey prev key) (fst kv) (snd kv) out)
        props output
  | _ => Obj.set (newKey prev key) v output
  end.

Definition step (obj : object) (prev : string) (output : object) : object :=
  fold_left (fun out kv => visit prev (fst kv) (snd kv) out) obj output.

Definition flatten (target : object) : object := step target "" [].

End Flat.

Section Flattener.

(** [_.startCase] of lodash, the title-case transformer, is a library
    function outside the repository; the flattener is parametric in
    it. *)
Variable startCase : string -> string.

Definition is_upper (c : ascii) : bool :=
  (65 <=? Obj.code c)%N && (Obj.code c <=? 90)%N.

Definition is_env_char (c : ascii) : bool :=
  is_upper c || (Obj.code c =? 95)%N.

Fixpoint all_chars (p : ascii -> bool) (s : string) : bool :=
  match s with
  | EmptyString => true
  | String c r => p c && all_chars p r
  end.

(** [/^[A-Z_]+$/.test(key)] *)
Definition regex_test (key : string) : bool :=
  negb (String.eqb key "") && all_chars is_env_char key.

(** The callback given to [renameKeys]. *)
Definition transformKey (key : string) : string :=
  if regex_test key then key else startCase key.

Fixpoint makeFlatStartCaseObject (obj : value) : result value :=
  match obj with
  | VUndefined => Ok obj
  | VArr arr =>
      result_map VArr
        (mapM (fun property =>
                 if isObject property
                 then makeFlatStartCaseObject property
                 else Ok property) arr)
  | VObj _ =>
      bind (deepMapKeys transformKey obj) (fun transformedKeysObject =>
      match transformedKeysObject with
      | VObj target => Ok (VObj (Flat.flatten target))
      | other => Ok other
      end)
  | _ => Ok (VObj [("Value", obj)])
  end.

End Flattener.

(** ** The path anonymizer *)

(** Node's [path] module, for the two platforms it knows. *)
Module Path.

Inductive platform : Type := posix | win32.

Definition is_slash (c : ascii) : bool := (Obj.code c =? 47)%N.
Definition is_backslash (c : ascii) : bool := (Obj.code c =? 92)%N.
Definition is_colon (c : ascii) : bool := (Obj.code c =? 58)%N.

Definition is_letter (c : ascii) : bool :=
  ((65 <=? Obj.code c)%N && (Obj.code c <=? 90)%N)
  || ((97 <=? Obj.code c)%N && (Obj.code c <=? 122)%N).

Definition is_sep (pf : platform) (c : ascii) : bool :=
  match pf with
  | posix => is_slash c
  | win32 => is_slash c || is_backslash c
  end.

(** [path.isAbsolute]: on POSIX a path that starts with a slash; on
    Windows a path that starts with a slash or backslash, or with a
    drive letter, a colon and a slash or backslash. *)
Definition isAbsolute (pf : platform) (p : string) : bool :=
  match pf, p with
  | _, EmptyString => false
  | posix, String c _ => is_slash c
  | win32, String c r =>
      if is_slash c || is_backslash c then true
      else if is_letter c then
        match r with
        | String c1 (String c2 _) =>
            is_colon c1 && (is_slash c2 || is_backslash c2)
        | _ => false
        end
      else false
  end.

(** The part of the path the scan of [path.basename] runs over: on
    Windows a leading drive letter and colon are left out ([start = 2]). *)
Definition scanned (pf : platform) (p : list ascii) : list ascii :=
  match pf, p with
  | win32, c :: c1 :: r => if is_letter c && is_colon c1 then r else p
  | _, _ => p
  end.

(** The loop of [path.basename], which runs from the last character
    down: [back] holds the characters still to be read, last one first,
    [matchedSlash] is true as long as only separators were read, and
    [seg] holds the characters read since the first one that was not a
    separator ([path.slice(start, end)] when the loop ends).  A
    separator read while [matchedSlash] is false ends the loop. *)
Fixpoint scan (pf : platform) (matchedSlash : bool) (back seg : list ascii)
  : list ascii :=
  match back with
  | [] => seg
  | c :: r =>
      if is_sep pf c
      then if matchedSlash then scan pf true r seg else seg
      else scan pf false r (c :: seg)
  end.

(** [path.basename(p)] *)
Definition basename (pf : platform) (p : string) : string :=
  string_of_list_ascii
    (scan pf true (rev (scanned pf (list_ascii_of_string p))) []).

(** The list without, and the list of, the elements it starts with that
    satisfy [p]; the scan is described with them in the proofs. *)
Fixpoint drop_while (p : ascii -> bool) (l : list ascii) : list ascii :=
  match l with
  | [] => []
  | c :: r => if p c then drop_while p r else l
  end.

Fixpoint take_while (p : ascii -> bool) (l : list ascii) : list ascii :=
  match l with
  | [] => []
  | c :: r => if p c then c :: take_while p r else []
  end.

End Path.

(** [_.startsWith(s, target)] *)
Definition startsWith (s target : string) : bool := String.prefix target s.

(** [_.mapValues(obj, f)]: the values are assigned, key by key, to a
    fresh mapping. *)
Definition mapValues (f : value -> value) (obj : object) : object :=
  Obj.assign (map (fun kv => (fst kv, f (snd kv))) obj) [].

(** [_.extend({}, obj, mapped)] *)
Definition extend (obj mapped : object) : object :=
  Obj.assign mapped (Obj.assign obj []).

(** [_.deepMapValues(object, callback)] of [lodash-deep]: sequences and
    mappings are rebuilt with their elements and property values mapped
    recursively, and [callback] is applied to everything else.  (The
    property path handed to [callback] as well is not used by the caller
    and is left out.) *)
Fixpoint deepMapValues (callback : value -> value) (v : value) : value :=
  match v with
  | VArr arr => VArr (map (deepMapValues callback) arr)
  | VObj obj => VObj (extend obj (mapValues (deepMapValues callback) obj))
  | _ => callback v
  end.

Section Anonymizer.

(** The platform the program runs on. *)
Variable host : Path.platform.

(** The rewriting of one string. *)
Definition hidePath (s : string) : string :=
  if startsWith s "/dev/" || startsWith s "\\.\" then s
  else if Path.isAbsolute host s then Path.basename host s else s.

(** The callback given to [deepMapValues]. *)
Definition hideValue (v : value) : value :=
  match v with
  | VStr s => VStr (hidePath s)
  | _ => v
  end.

Definition hideAbsolutePathsInObject (obj : value) : value :=
  deepMapValues hideValue obj.

End Anonymizer.

(** ** A start-case transformer *)

Module StartCase.

Inductive kind : Type := Upper | Lower | Digit | Other.

Definition kind_of (c : ascii) : kind :=
  let n := Obj.code c in
  if (65 <=? n)%N && (n <=? 90)%N then Upper
  else if (97 <=? n)%N && (n <=? 122)%N then Lower
  else if (48 <=? n)%N && (n <=? 57)%N then Digit
  else Other.

(** A word ends between [p] and [c] where the case changes from lower
    to upper, where a letter meets a digit, and before the last capital
    of a run of capitals that a lower-case letter follows. *)
Definition boundary (p c : ascii) (next : option ascii) : bool :=
  match kind_of p, kind_of c with
  | Lower, Upper => true
  | Upper, Upper =>
      match next with
      | Some n => match kind_of n with Lower => true | _ => false end
      | None => false
      end
  | Digit, Upper | Digit, Lower | Upper, Digit | Lower, Digit => true
  | _, _ => false
  end.

Definition flush (cur : list ascii) : list (list ascii) :=
  match cur with [] => [] | _ => [rev cur] end.

(** [cur] is the word being read, last character first. *)
Fixpoint split (cur : list ascii) (l : list ascii) : list (list ascii) :=
  match l with
  | [] => flush cur
  | c :: r =>
      match kind_of c with
      | Other => flush cur ++ split [] r
      | _ =>
          match cur with
          | p :: _ =>
              if boundary p c (hd_error r)
              then rev cur :: split [c] r
              else split (c :: cur) r
          | [] => split [c] r
          end
      end
  end.

Definition words (s : string) : list string :=
  map string_of_list_ascii (split [] (list_ascii_of_string s)).

Definition upperFirst (w : string) : string :=
  match w with
  | EmptyString => EmptyString
  | String c r =>
      match kind_of c with
      | Lower => String (ascii_of_N (Obj.code c - 32)) r
      | _ => w
      end
  end.

(** Modelled from the spec: the title-case transformer ([_.startCase]
    of lodash), which the repository uses and does not contain.  The
    words of the key, found at delimiters, case changes and
    digit/letter transitions, are capitalized and joined by single
    spaces.  It stands for the library function on the ASCII keys of
    the examples below; the general statements are proved for every
    transformer. *)
Definition startCase (s : string) : string :=
  String.concat " " (map upperFirst (words s)).

End StartCase.

(** The flattener with that transformer. *)
Definition flat_start_case : value -> result value :=
  makeFlatStartCaseObject StartCase.startCase.

(** ** Notions the statements are written with *)

(** The value found by following a path of keys through nested
    mappings. *)
Fixpoint get_path (v : value) (ks : list string) : option value :=
  match ks with
  | [] => Some v
  | k :: ks' =>
      match v with
      | VObj ps =>
          match Obj.get k ps with
          | Some x => get_path x ks'
          | None => None
          end
      | _ => None
      end
  end.

(** What flattening stores rather than descends into: everything but a
    mapping with at least one property. *)
Definition stored (v : value) : bool :=
  match v with VObj (_ :: _) => false | _ => true end.

(** The key paths of a mapping that end in a stored value, with that
    value, in the order in which flattening meets them. *)
Fixpoint leaves_at (k : string) (v : value) : list (list string * value) :=
  match v with
  | VObj ((_ :: _) as ps) =>
      map (fun e => (k :: fst e, snd e))
        (flat_map (fun kv => leaves_at (fst kv) (snd kv)) ps)
  | _ => [([k], v)]
  end.

Definition leaves (o : object) : list (list string * value) :=
  flat_map (fun kv => leaves_at (fst kv) (snd kv)) o.

(** The path-string of a sequence of segments as [flat] builds it,
    starting from the prefix [prev]. *)
Definition path_string (prev : string) (segs : list string) : string :=
  fold_left Flat.newKey segs prev.

(** The assignments flattening makes for a list of key paths, under the
    prefix [prev]. *)
Definition entries (prev : string) (l : list (list string * value)) : object :=
  map (fun e => (path_string prev (fst e), snd e)) l.

(** The keys of a mapping that are enumerated after the key [k]. *)
Fixpoint after (k : string) (o : object) : list string :=
  match o with
  | [] => []
  | (k', _) :: r => if String.eqb k k' then Obj.keys r else after k r
  end.

(** Of the key paths of the list whose path-string is [key], the one
    met last. *)
Fixpoint last_path_with (key : string) (l : list (list string * value))
  : option (list string) :=
  match l with
  | [] => None
  | e :: r =>
      match last_path_with key r with
      | Some p => Some p
      | None =>
          if String.eqb (path_string "" (fst e)) key then Some (fst e)
          else None
      end
  end.

Section Rendering.

Variable startCase : string -> string.

(** The path-string of a key path of the input. *)
Definition rendered (ks : list string) : string :=
  path_string "" (map (transformKey startCase) ks).

(** Along the key path [ks], no key of the same mapping that is
    enumerated after the key on the path is renamed to the same
    segment: the key on the path is renamed last. *)
Fixpoint last_renamed (v : value) (ks : list string) : bool :=
  match ks, v with
  | k :: ks', VObj ps =>
      forallb (fun k2 =>
                 negb (String.eqb (transformKey startCase k2)
                                  (transformKey startCase k))) (after k ps)
      && match Obj.get k ps with
         | Some x => last_renamed x ks'
         | None => true
         end
  | _, _ => true
  end.

End Rendering.

(** The value in which [f] is applied to every leaf, sequences and
    mappings being kept as they are. *)
Fixpoint rewrite_leaves (f : value -> value) (v : value) : value :=
  match v with
  | VArr arr => VArr (map (rewrite_leaves f) arr)
  | VObj obj => VObj (map (fun kv => (fst kv, rewrite_leaves f (snd kv))) obj)
  | _ => f v
  end.

(** Two values of the same shape, sequence for sequence of the same
    length and mapping for mapping with the same keys in the same order,
    whose leaves are related by [R] position by position. *)
Inductive leafwise (R : value -> value -> Prop) : value -> value -> Prop :=
| leafwise_leaf a b :
    isObject a = false -> isObject b = false -> R a b -> leafwise R a b
| leafwise_arr l l' :
    Forall2 (leafwise R) l l' -> leafwise R (VArr l) (VArr l')
| leafwise_obj ps ps' :
    Forall2 (fun e e' => fst e = fst e' /\ leafwise R (snd e) (snd e')) ps ps' ->
    leafwise R (VObj ps) (VObj ps').

(** The strings left alone although they look like absolute paths. *)
Definition is_device (s : string) : bool :=
  startsWith s "/dev/" || startsWith s "\\.\".

(** No character of the string is a path separator. *)
Definition separator_free (pf : Path.platform) (s : string) : bool :=
  forallb (fun c => negb (Path.is_sep pf c)) (list_ascii_of_string s).

(** [r] is the final segment of the path [v]: it holds no separator, and
    the path (on Windows, after its drive letter and colon) is [r]
    preceded by nothing or by something that ends in a separator, and
    followed by separators only. *)
Definition final_segment (pf : Path.platform) (v r : string) : Prop :=
  separator_free pf r = true /\
  exists dir trail,
    Path.scanned pf (list_ascii_of_string v)
    = dir ++ list_ascii_of_string r ++ trail /\
    forallb (Path.is_sep pf) trail = true /\
    (dir = [] \/ exists d c, dir = d ++ [c] /\ Path.is_sep pf c = true).

(** How a string leaf [a] and the leaf [b] at its place in the output are
    related. *)
Definition string_rule (host : Path.platform) (a b : value) : Prop :=
  forall v, a = VStr v ->
  exists r, b = VStr r /\
    (is_device v = true -> r = v) /\
    (is_device v = false -> Path.isAbsolute host v = true ->
     r = Path.basename host v /\ final_segment host v r) /\
    (is_device v = false -> Path.isAbsolute host v = false -> r = v).

(** A leaf that is not a string is kept, and a leaf that changed is a
    string that is an absolute path and not a device. *)
Definition value_rule (host : Path.platform) (a b : value) : Prop :=
  (isString a = false -> b = a) /\
  (b <> a ->
   exists s, a = VStr s /\ is_device s = false /\
             Path.isAbsolute host s = true).

(** The example of the documentation of [hideAbsolutePathsInObject]. *)
Definition example_paths : value :=
  VObj [("path1", VStr "/home/john/rpi.img");
        ("simpleProperty", VNull);
        ("nested",
         VObj [("path2", VStr "/home/john/another-image.img");
               ("path3", VStr "yet-another-image.img");
               ("otherProperty", VBool false)])].

(** The keys of the mappings of a value, at every depth. *)
Fixpoint all_keys (v : value) : list string :=
  match v with
  | VArr arr => flat_map all_keys arr
  | VObj obj => flat_map (fun kv => fst kv :: all_keys (snd kv)) obj
  | _ => []
  end.

(** Whether a mapping of the value, at any depth, has an own property
    named [hasOwnProperty]. *)
Definition shadows (v : value) : bool :=
  existsb (String.eqb "hasOwnProperty") (all_keys v).

(** What [deepMapKeys] returns when it throws nothing: the renamed
    copy, built by the same assignments. *)
Fixpoint renameKeys (mapFn : string -> string) (v : value) : value :=
  match v with
  | VArr arr => VArr (map (renameKeys mapFn) arr)
  | VObj obj =>
      VObj (fold_left
              (fun result kv =>
                 Obj.set (mapFn (fst kv)) (renameKeys mapFn (snd kv)) result)
              obj [])
  | _ => v
  end.

(** What [makeFlatStartCaseObject] returns when it throws nothing. *)
Fixpoint flatStartCase (startCase : string -> string) (obj : value) : value :=
  match obj with
  | VUndefined => obj
  | VArr arr =>
      VArr (map (fun property =>
                   if isObject property
                   then flatStartCase startCase property
                   else property) arr)
  | VObj _ =>
      match renameKeys (transformKey startCase) obj with
      | VObj target => VObj (Flat.flatten target)
      | other => other
      end
  | _ => VObj [("Value", obj)]
  end.

(** A character of an environment-variable style key. *)
Definition env_char (c : ascii) : Prop :=
  (65 <= Obj.code c <= 90)%N \/ c = "_"%char.

(** The example of the documentation of [flatStartCase], for
    any two sizes. *)
Definition example_image (s r : value) : value :=
  VObj [("image", VObj [("size", s); ("recommendedSize", r)])].

(** The properties of a mapping after [renameKeys]. *)
Definition renamed_props (f : string -> string) (ps : object) : object :=
  Obj.assign (map (fun kv => (f (fst kv), renameKeys f (snd kv))) ps) [].

(** The segments without the empty ones they start with. *)
Fixpoint skip_empty (segs : list string) : list string :=
  match segs with
  | s :: r => if String.eqb s "" then skip_empty r else segs
  | [] => []
  end.

(** Two keys of one mapping that are renamed alike. *)
Definition example_clash : value :=
  VObj [("a", VNum 1); ("A", VNum 2)].

(** A key that is the empty string, above a leaf. *)
Definition example_empty_key : value :=
  VObj [("", VObj [("a", VNum 1)])].

(** An absent branch, an empty branch and a leaf. *)
Definition example_branches : value :=
  VObj [("A", VUndefined); ("B", VObj []); ("c", VNum 3)].

(** A sequence under a key that another key is renamed like. *)
Definition example_sequence_clash : value :=
  VObj [("a", VArr [VNum 1]); ("A", VNum 2)].

(** A sequence that holds a mapping, and a leaf. *)
Definition example_sequence : value :=
  VObj [("list", VArr [VObj [("a", VNum 1)]; VNum 2]); ("n", VNum 3)].

(** The string leaves of a value, at every depth. *)
Fixpoint string_leaves (v : value) : list string :=
  match v with
  | VStr s => [s]
  | VArr arr => flat_map string_leaves arr
  | VObj obj => flat_map (fun kv => string_leaves (snd kv)) obj
  | _ => []
  end.

(** A value with no mapping in it, at any depth. *)
Fixpoint mapping_free (v : value) : bool :=
  match v with
  | VArr arr => forallb mapping_free arr
  | VObj _ => false
  | _ => true
  end.

(** A string the anonymizer has nothing to hide in: a device, or a path
    that is not absolute. *)
Definition harmless (host : Path.platform) (s : string) : bool :=
  is_device s || negb (Path.isAbsolute host s).

(** The store with [g] applied to the value of every property. *)
Definition map_values (g : value -> value) (o : object) : object :=
  map (fun kv => (fst kv, g (snd kv))) o.

(** A mapping with an environment-variable style key, a sequence and
    two keys renamed alike. *)
Definition example_env : value :=
  VObj [("ETCHER_DISABLE_UPDATES", VBool true); ("PATH", VStr "/usr/bin")].

Definition example_nested_sequence : value :=
  VArr [VNum 1; VArr [VNum 2; VArr [VStr "/home/john/rpi.img"; VNull]]].

(** Two stores with the same keys in the same order, whose values are
    the same except, possibly, under the key [K]. *)
Definition agree_except (K : string) (o1 o2 : object) : Prop :=
  Forall2 (fun e1 e2 => fst e1 = fst e2 /\
                        (fst e1 <> K -> snd e1 = snd e2)) o1 o2.

(** A mapping, and a sequence that holds a mapping, with an own
    property named [hasOwnProperty]. *)
Definition example_shadow : value :=
  VObj [("hasOwnProperty", VNum 1)].

Definition example_shadow_sequence : value :=
  VArr [VObj [("hasOwnProperty", VNum 1)]].

(** * Properties *)

(** ** Property stores *)

Module ObjFacts.
Import Obj.

Lemma has_true k o : has k o = true <-> In k (keys o).
Proof.
  unfold has. rewrite existsb_exists. split.
  - intros (x & Hx & He). apply String.eqb_eq in He. now subst.
  - intros H. exists k. split; [assumption | apply String.eqb_refl].
Qed.

Lemma has_false k o : has k o = false <-> ~ In k (keys o).
Proof.
  rewrite <- has_true. destruct (has k o); split; congruence.
Qed.

Lemma distinct_NoDup l : distinct l = true <-> NoDup l.
Proof.
  induction l as [|k r IH]; simpl.
  - split; [constructor | reflexivity].
  - rewrite andb_true_iff, negb_true_iff, IH. split.
    + intros [Hn Hr]. constructor; [|assumption].
      intros Hin. assert (existsb (String.eqb k) r = true) as E; [|congruence].
      apply existsb_exists. exists k. split; [assumption | apply String.eqb_refl].
    + intros H. inversion H as [|? ? Hn Hr]; subst. split; [|assumption].
      destruct (existsb (String.eqb k) r) eqn:E; [|reflexivity].
      apply existsb_exists in E. destruct E as (x & Hx & He).
      apply String.eqb_eq in He. subst. contradiction.
Qed.

Lemma keys_replace k v o : keys (replace k v o) = keys o.
Proof.
  induction o as [|[k' v'] r IH]; simpl; [reflexivity|].
  destruct (String.eqb_spec k k'); simpl; [now subst | now rewrite IH].
Qed.

Lemma In_replace_same k v o : In k (keys o) -> In (k, v) (replace k v o).
Proof.
  induction o as [|[k' v'] r IH]; simpl; [tauto|].
  intros H. destruct (String.eqb_spec k k'); [now left|].
  right. apply IH. destruct H; [congruence | assumption].
Qed.

Lemma In_replace_other k v o k2 v2 :
  k2 <> k -> In (k2, v2) o -> In (k2, v2) (replace k v o).
Proof.
  intros Hne. induction o as [|[k' v'] r IH]; simpl; [tauto|].
  intros [H|H]; destruct (String.eqb_spec k k'); simpl; auto.
  inversion H; subst. congruence.
Qed.

Lemma In_replace_inv k v o e :
  In e (replace k v o) -> e = (k, v) \/ In e o.
Proof.
  induction o as [|[k' v'] r IH]; simpl; [tauto|].
  destruct (String.eqb_spec k k'); simpl; intros [H|H]; auto.
  destruct (IH H); auto.
Qed.

Lemma In_create k v o e : In e (create k v o) <-> e = (k, v) \/ In e o.
Proof.
  induction o as [|[k' v'] r IH]; simpl.
  - intuition.
  - destruct (precedes k k'); simpl; [intuition|].
    rewrite IH. intuition.
Qed.

Lemma keys_create k v o x : In x (keys (create k v o)) <-> x = k \/ In x (keys o).
Proof.
  induction o as [|[k' v'] r IH]; simpl.
  - intuition.
  - destruct (precedes k k'); simpl; [intuition|].
    rewrite IH. intuition.
Qed.

Lemma NoDup_create k v o :
  ~ In k (keys o) -> NoDup (keys o) -> NoDup (keys (create k v o)).
Proof.
  induction o as [|[k' v'] r IH]; simpl; intros Hn Hd.
  - constructor; [tauto | constructor].
  - destruct (precedes k k'); simpl.
    + constructor; assumption.
    + inversion Hd; subst. constructor.
      * rewrite keys_create. intuition.
      * apply IH; intuition.
Qed.

Lemma In_set_same k v o : In (k, v) (set k v o).
Proof.
  unfold set. destruct (has k o) eqn:E.
  - apply In_replace_same. now apply has_true.
  - apply In_create. now left.
Qed.

Lemma In_set_other k v o k2 v2 :
  k2 <> k -> In (k2, v2) o -> In (k2, v2) (set k v o).
Proof.
  intros Hne Hin. unfold set. destruct (has k o).
  - now apply In_replace_other.
  - apply In_create. now right.
Qed.

Lemma In_set_inv k v o e : In e (set k v o) -> e = (k, v) \/ In e o.
Proof.
  unfold set. destruct (has k o).
  - apply In_replace_inv.
  - apply In_create.
Qed.

Lemma NoDup_set k v o : NoDup (keys o) -> NoDup (keys (set k v o)).
Proof.
  intros Hd. unfold set. destruct (has k o) eqn:E.
  - now rewrite keys_replace.
  - apply NoDup_create; [now apply has_false | assumption].
Qed.

Lemma set_nonempty k v o : set k v o <> [].
Proof.
  intros E. pose proof (In_set_same k v o) as H. rewrite E in H. exact H.
Qed.

Lemma assign_snoc l e d :
  assign (l ++ [e]) d = set (fst e) (snd e) (assign l d).
Proof. unfold assign. now rewrite fold_left_app. Qed.

Lemma NoDup_assign l d : NoDup (keys d) -> NoDup (keys (assign l d)).
Proof.
  revert d. induction l as [|e l IH]; simpl; intros d Hd; [assumption|].
  apply IH. now apply NoDup_set.
Qed.

Lemma In_assign_inv l d e : In e (assign l d) -> In e l \/ In e d.
Proof.
  revert d. induction l as [|[k v] l IH]; simpl; intros d H; [tauto|].
  apply IH in H. destruct H as [H|H]; [tauto|].
  apply In_set_inv in H. simpl in H. intuition.
Qed.

(** A property assigned once, or always with the same value, is in the
    result. *)
Lemma In_assign l d k v :
  In (k, v) l -> (forall v', In (k, v') l -> v' = v) -> In (k, v) (assign l d).
Proof.
  induction l as [|[k' v'] l IH] using rev_ind; [simpl; tauto|].
  intros Hin Hu. rewrite assign_snoc. simpl.
  destruct (string_dec k' k) as [->|Hne].
  - rewrite (Hu v'); [apply In_set_same|].
    apply in_or_app. right. now left.
  - apply In_set_other; [congruence|]. apply IH.
    + apply in_app_or in Hin. destruct Hin as [H|[H|[]]]; [assumption|congruence].
    + intros v0 H0. apply Hu. apply in_or_app. now left.
Qed.

Lemma assign_nonempty l d : l <> [] -> assign l d <> [].
Proof.
  destruct l as [|e l] using rev_ind; [congruence|].
  intros _. rewrite assign_snoc. apply set_nonempty.
Qed.

Lemma get_In k v o : get k o = Some v -> In (k, v) o.
Proof.
  induction o as [|[k' v'] r IH]; simpl; [discriminate|].
  destruct (String.eqb_spec k k'); [|now auto].
  intros H. inversion H; subst. now left.
Qed.

Lemma In_get k v o : NoDup (keys o) -> In (k, v) o -> get k o = Some v.
Proof.
  induction o as [|[k' v'] r IH]; simpl; [tauto|].
  intros Hd [H|H].
  - inversion H; subst. now rewrite String.eqb_refl.
  - inversion Hd; subst. destruct (String.eqb_spec k k'); [|now auto].
    subst. exfalso. apply H2. now apply (in_map fst) in H.
Qed.

Lemma wf_NoDup o : wf o = true -> NoDup (keys o).
Proof.
  unfold wf. rewrite andb_true_iff. intros [H _]. now apply distinct_NoDup.
Qed.

(** Creating a key that none of the present ones has to follow appends
    it. *)
Lemma create_last k v o :
  forallb (fun k' => negb (precedes k k')) (keys o) = true ->
  create k v o = o ++ [(k, v)].
Proof.
  induction o as [|[k' v'] r IH]; simpl; [reflexivity|].
  rewrite andb_true_iff, negb_true_iff. intros [Hp Hr].
  rewrite Hp. now rewrite IH.
Qed.

Lemma ordered_app_inv a k r :
  ordered (a ++ k :: r) = true ->
  forallb (fun k' => negb (precedes k k')) a = true.
Proof.
  induction a as [|x a IH]; simpl; [reflexivity|].
  rewrite !andb_true_iff. intros [Hx Ha]. split; [|now apply IH].
  rewrite forallb_app in Hx. apply andb_true_iff in Hx. destruct Hx as [_ Hx].
  simpl in Hx. now apply andb_true_iff in Hx.
Qed.

(** Assigning to a store properties that continue it in enumeration
    order appends them. *)
Lemma assign_ordered l d :
  wf (d ++ l) = true -> assign l d = d ++ l.
Proof.
  revert d. induction l as [|[k v] l IH]; intros d Hwf; simpl.
  - now rewrite app_nil_r.
  - assert (set k v d = d ++ [(k, v)]) as ->.
    { unfold wf in Hwf. apply andb_true_iff in Hwf. destruct Hwf as [Hd Ho].
      unfold set. assert (has k d = false) as ->.
      { apply has_false. apply distinct_NoDup in Hd. unfold keys in Hd.
        rewrite map_app in Hd. simpl in Hd. apply NoDup_remove_2 in Hd.
        intros Hin. apply Hd. apply in_or_app. now left. }
      apply create_last. unfold keys in Ho. rewrite map_app in Ho.
      apply (ordered_app_inv _ _ _ Ho). }
    rewrite IH; rewrite <- app_assoc; [reflexivity | exact Hwf].
Qed.

Lemma assign_wf l : wf l = true -> assign l [] = l.
Proof. intros H. now rewrite assign_ordered. Qed.

End ObjFacts.

(** ** The path anonymizer *)

Module AnonymizerFacts.
Import Obj ObjFacts.

Lemma replace_app k v v0 a r :
  ~ In k (keys a) -> replace k v (a ++ (k, v0) :: r) = a ++ (k, v) :: r.
Proof.
  unfold keys. induction a as [|[k' v'] a IH]; simpl; intros Hn.
  - now rewrite String.eqb_refl.
  - destruct (String.eqb_spec k k') as [E|E]; [symmetry in E; tauto|].
    rewrite IH; tauto.
Qed.

Lemma keys_map_values (g : value -> value) (l : object) :
  keys (map (fun kv => (fst kv, g (snd kv))) l) = keys l.
Proof. unfold keys. rewrite map_map. reflexivity. Qed.

(** Overwriting the values of a store, key by key in its own order,
    gives the store of the new values. *)
Lemma assign_over (g : value -> value) l d :
  NoDup (keys (d ++ l)) ->
  assign (map (fun kv => (fst kv, g (snd kv))) l)
         (map (fun kv => (fst kv, g (snd kv))) d ++ l)
  = map (fun kv => (fst kv, g (snd kv))) (d ++ l).
Proof.
  revert d. induction l as [|[k v] l IH]; intros d Hd; simpl.
  - now rewrite !app_nil_r.
  - assert (~ In k (keys d)) as Hk.
    { unfold keys in Hd. rewrite map_app in Hd. simpl in Hd.
      apply NoDup_remove_2 in Hd. intros Hin. apply Hd, in_or_app. now left. }
    unfold set. rewrite (proj2 (has_true _ _)).
    + rewrite replace_app by now rewrite keys_map_values.
      specialize (IH (d ++ [(k, v)])).
      rewrite map_app in IH. simpl in IH. rewrite <- !app_assoc in IH.
      simpl in IH. apply IH. exact Hd.
    + unfold keys. rewrite map_app. apply in_or_app. right. now left.
Qed.

Lemma wf_map_values (g : value -> value) l :
  wf (map (fun kv => (fst kv, g (snd kv))) l) = wf l.
Proof. unfold wf. now rewrite keys_map_values. Qed.

Lemma extend_mapValues g obj :
  wf obj = true ->
  extend obj (mapValues g obj) = map (fun kv => (fst kv, g (snd kv))) obj.
Proof.
  intros Hwf. unfold extend, mapValues.
  rewrite (assign_wf obj Hwf).
  rewrite assign_wf by now rewrite wf_map_values.
  apply (assign_over g obj []). simpl. now apply wf_NoDup.
Qed.

(** On a well-formed value [deepMapValues] rewrites the leaves and
    nothing else. *)
Lemma deepMapValues_rewrite f x :
  wf_value x = true -> deepMapValues f x = rewrite_leaves f x.
Proof.
  induction x as [| | | | |l IH|ps IH] using value_ind; simpl; try reflexivity.
  - intros Hwf. f_equal. apply map_ext_in. intros a Ha.
    rewrite Forall_forall in IH. apply IH; [assumption|].
    rewrite forallb_forall in Hwf. now apply Hwf.
  - rewrite andb_true_iff. intros [Hwf Hps]. f_equal.
    rewrite extend_mapValues by assumption.
    apply map_ext_in. intros [k v] Hin. simpl. f_equal.
    rewrite Forall_forall in IH. apply (IH (k, v) Hin).
    rewrite forallb_forall in Hps. apply (Hps (k, v) Hin).
Qed.

Section Leaves.

Variable f : value -> value.
Hypothesis f_leaf : forall a, isObject a = false -> isObject (f a) = false.

Lemma leafwise_rewrite (R : value -> value -> Prop) :
  (forall a, isObject a = false -> R a (f a)) ->
  forall x, leafwise R x (rewrite_leaves f x).
Proof.
  intros HR.
  induction x as [| | | | |l IH|ps IH] using value_ind; simpl;
    try (apply leafwise_leaf; [reflexivity | now apply f_leaf | now apply HR]).
  - apply leafwise_arr. induction IH; simpl; constructor; assumption.
  - apply leafwise_obj. induction IH; simpl; constructor; auto.
Qed.

Lemma wf_rewrite x : wf_value (rewrite_leaves f x) = wf_value x.
Proof.
  assert (forall a, isObject a = false -> wf_value (f a) = true) as Hl.
  { intros a Ha. apply f_leaf in Ha. now destruct (f a). }
  induction x as [| | | | |l IH|ps IH] using value_ind; simpl;
    try (now apply Hl).
  - induction IH; simpl; [reflexivity|]. now f_equal.
  - rewrite wf_map_values. f_equal.
    induction IH; simpl; [reflexivity|]. now f_equal.
Qed.

Lemma rewrite_idempotent :
  (forall a, isObject a = false -> f (f a) = f a) ->
  forall x, rewrite_leaves f (rewrite_leaves f x) = rewrite_leaves f x.
Proof.
  intros Hf.
  assert (forall a, isObject a = false -> rewrite_leaves f (f a) = f a) as Hl.
  { intros a Ha. pose proof (f_leaf a Ha) as Hb. rewrite <- (Hf a Ha) at 2.
    now destruct (f a). }
  induction x as [| | | | |l IH|ps IH] using value_ind; simpl;
    try (now apply Hl).
  - f_equal. rewrite map_map. apply map_ext_in. intros a Ha.
    rewrite Forall_forall in IH. now apply IH.
  - f_equal. rewrite map_map. apply map_ext_in. intros [k v] Hin. simpl.
    f_equal. rewrite Forall_forall in IH. apply (IH (k, v) Hin).
Qed.

End Leaves.

End AnonymizerFacts.

Module PathFacts.
Import Path.

Lemma take_while_all p l : forallb p (take_while p l) = true.
Proof.
  induction l as [|c r IH]; simpl; [reflexivity|].
  destruct (p c) eqn:E; simpl; [now rewrite E|reflexivity].
Qed.

Lemma drop_while_all p l : forallb p (take_while p l) = true /\
  l = take_while p l ++ drop_while p l.
Proof.
  split; [apply take_while_all|].
  induction l as [|c r IH]; simpl; [reflexivity|].
  destruct (p c); simpl; [now f_equal | reflexivity].
Qed.

Lemma drop_while_head p l :
  drop_while p l = [] \/ exists c r, drop_while p l = c :: r /\ p c = false.
Proof.
  induction l as [|c r IH]; simpl; [now left|].
  destruct (p c) eqn:E; [assumption|]. right. now exists c, r.
Qed.

Lemma forallb_rev (p : ascii -> bool) l : forallb p (rev l) = forallb p l.
Proof.
  induction l as [|c r IH]; simpl; [reflexivity|].
  rewrite forallb_app, IH. simpl. rewrite andb_true_r. apply andb_comm.
Qed.

Lemma scan_taking pf back seg :
  scan pf false back seg
  = rev (take_while (fun c => negb (is_sep pf c)) back) ++ seg.
Proof.
  revert seg. induction back as [|c r IH]; intros seg; simpl; [reflexivity|].
  destruct (is_sep pf c); simpl; [reflexivity|].
  rewrite IH, <- app_assoc. reflexivity.
Qed.

(** The scan skips the separators that end the path and takes the
    characters before them up to the next separator. *)
Lemma scan_segment pf back :
  scan pf true back []
  = rev (take_while (fun c => negb (is_sep pf c))
           (drop_while (is_sep pf) back)).
Proof.
  induction back as [|c r IH]; simpl; [reflexivity|].
  destruct (is_sep pf c) eqn:E; [exact IH|].
  simpl. rewrite E. simpl. apply scan_taking.
Qed.

Lemma basename_separator_free pf p :
  separator_free pf (basename pf p) = true.
Proof.
  unfold separator_free, basename.
  rewrite list_ascii_of_string_of_list_ascii, scan_segment, forallb_rev.
  apply take_while_all.
Qed.

(** The basename of a path is its final segment. *)
Lemma basename_final_segment pf p : final_segment pf p (basename pf p).
Proof.
  split; [apply basename_separator_free|].
  unfold basename. rewrite list_ascii_of_string_of_list_ascii, scan_segment.
  set (s := scanned pf (list_ascii_of_string p)).
  set (back := rev s).
  set (rest := drop_while (is_sep pf) back).
  set (notsep := fun c => negb (is_sep pf c)).
  exists (rev (drop_while notsep rest)), (rev (take_while (is_sep pf) back)).
  split; [|split].
  - rewrite app_assoc, <- !rev_app_distr.
    rewrite <- (proj2 (drop_while_all notsep rest)).
    unfold rest. rewrite <- (proj2 (drop_while_all (is_sep pf) back)).
    unfold back. now rewrite rev_involutive.
  - rewrite forallb_rev. apply take_while_all.
  - destruct (drop_while_head notsep rest) as [E|(c & r & E & Hc)].
    + left. now rewrite E.
    + right. exists (rev r), c. rewrite E. simpl. split; [reflexivity|].
      unfold notsep in Hc. now apply negb_false_iff in Hc.
Qed.

Lemma separator_free_relative pf s :
  separator_free pf s = true -> isAbsolute pf s = false.
Proof.
  unfold separator_free.
  destruct s as [|c r]; [now destruct pf|]. simpl.
  rewrite andb_true_iff, negb_true_iff. intros [Hc Hr].
  destruct pf; simpl in *; [assumption|]. rewrite Hc.
  destruct (is_letter c); [|reflexivity].
  destruct r as [|c1 [|c2 r]]; try reflexivity.
  simpl in Hr. rewrite !andb_true_iff, !negb_true_iff in Hr.
  destruct Hr as (_ & -> & _). apply andb_false_r.
Qed.

End PathFacts.

Section AnonymizerClaims.
Import AnonymizerFacts PathFacts.

Variable host : Path.platform.

Lemma hideValue_leaf a : isObject a = false -> isObject (hideValue host a) = false.
Proof. now destruct a. Qed.

Lemma is_device_eq s :
  is_device s = (startsWith s "/dev/" || startsWith s "\\.\").
Proof. reflexivity. Qed.

Lemma hidePath_cases s :
  (is_device s = true -> hidePath host s = s) /\
  (is_device s = false -> Path.isAbsolute host s = true ->
   hidePath host s = Path.basename host s) /\
  (is_device s = false -> Path.isAbsolute host s = false ->
   hidePath host s = s).
Proof.
  unfold hidePath. rewrite <- is_device_eq.
  repeat split; intros; repeat match goal with H : _ = _ |- _ => rewrite H end;
    reflexivity.
Qed.

Lemma hidePath_fixed s :
  separator_free host s = true -> hidePath host s = s.
Proof.
  intros H. unfold hidePath. rewrite (separator_free_relative _ _ H).
  now destruct (_ || _).
Qed.

Lemma hidePath_idempotent s : hidePath host (hidePath host s) = hidePath host s.
Proof.
  destruct (hidePath_cases s) as (Hd & Ha & Hr).
  destruct (is_device s) eqn:D; [now rewrite !Hd|].
  destruct (Path.isAbsolute host s) eqn:A; [|now rewrite !Hr].
  rewrite Ha by reflexivity.
  apply hidePath_fixed, basename_separator_free.
Qed.

Lemma hideAbsolutePathsInObject_rewrite x :
  wf_value x = true ->
  hideAbsolutePathsInObject host x = rewrite_leaves (hideValue host) x.
Proof. apply deepMapValues_rewrite. Qed.

(** C2: every string leaf of the input is found, at its place in the
    output, rewritten as follows: a string that starts with [/dev/] or
    with the Windows device prefix is unchanged; any other string that is
    an absolute path of the host platform is replaced by its basename,
    its final segment; any other string is unchanged. *)
Theorem anonymizer_string_leaves x :
  wf_value x = true ->
  leafwise (string_rule host) x (hideAbsolutePathsInObject host x).
Proof.
  intros Hwf. rewrite hideAbsolutePathsInObject_rewrite by assumption.
  apply leafwise_rewrite; [apply hideValue_leaf|].
  intros a _ v ->. simpl. exists (hidePath host v).
  destruct (hidePath_cases v) as (Hd & Ha & Hr).
  split; [reflexivity|]. split; [assumption|]. split; [|assumption].
  intros D A. split; [now apply Ha|].
  rewrite (Ha D A). apply basename_final_segment.
Qed.

(** C8: the output has the shape of the input, sequence for sequence of
    the same length and mapping for mapping with the same keys; a leaf
    that is not a string (number, boolean, null, absent) is unchanged,
    and a leaf that differs from the input's is a string that qualifies
    for rewriting: an absolute path that is not a device. *)
Theorem anonymizer_preserves_shape x :
  wf_value x = true ->
  leafwise (value_rule host) x (hideAbsolutePathsInObject host x).
Proof.
  intros Hwf. rewrite hideAbsolutePathsInObject_rewrite by assumption.
  apply leafwise_rewrite; [apply hideValue_leaf|].
  intros a _. split.
  - now destruct a.
  - intros Hne. destruct a; simpl in Hne; try congruence.
    exists s. split; [reflexivity|].
    destruct (hidePath_cases s) as (Hd & Ha & Hr).
    destruct (is_device s); [now rewrite Hd in Hne|].
    destruct (Path.isAbsolute host s); [now split|].
    now rewrite Hr in Hne.
Qed.

(** C9: the anonymizer is idempotent. *)
Theorem anonymizer_idempotent x :
  wf_value x = true ->
  hideAbsolutePathsInObject host (hideAbsolutePathsInObject host x)
  = hideAbsolutePathsInObject host x.
Proof.
  intros Hwf.
  rewrite (hideAbsolutePathsInObject_rewrite x Hwf).
  rewrite hideAbsolutePathsInObject_rewrite.
  - apply rewrite_idempotent; [apply hideValue_leaf|].
    intros [] _; simpl; try reflexivity. now rewrite hidePath_idempotent.
  - rewrite wf_rewrite; [assumption | apply hideValue_leaf].
Qed.

End AnonymizerClaims.

Lemma anonymizer_string_leaves_witness :
  wf_value example_paths = true /\
  leafwise (string_rule Path.posix) example_paths
    (hideAbsolutePathsInObject Path.posix example_paths).
Proof.
  split; [reflexivity|].
  apply (anonymizer_string_leaves Path.posix example_paths). reflexivity.
Defined.

Lemma anonymizer_preserves_shape_witness :
  wf_value example_paths = true /\
  leafwise (value_rule Path.win32) example_paths
    (hideAbsolutePathsInObject Path.win32 example_paths).
Proof.
  split; [reflexivity|].
  apply (anonymizer_preserves_shape Path.win32 example_paths). reflexivity.
Defined.

Lemma anonymizer_idempotent_witness :
  wf_value example_paths = true /\
  hideAbsolutePathsInObject Path.posix
    (hideAbsolutePathsInObject Path.posix example_paths)
  = hideAbsolutePathsInObject Path.posix example_paths.
Proof.
  split; [reflexivity|].
  apply (anonymizer_idempotent Path.posix example_paths). reflexivity.
Defined.

(** ** The key-transformation flattener *)

Module FlattenerFacts.
Import Obj ObjFacts.

(** The loop of [mapObject] assigns the renamed properties in turn. *)
Lemma mapObject_assign f ps d :
  fold_left (fun result kv =>
               set (f (fst kv)) (renameKeys f (snd kv)) result) ps d
  = assign (map (fun kv => (f (fst kv), renameKeys f (snd kv))) ps) d.
Proof.
  revert d. induction ps as [|kv ps IH]; intros d; simpl; [reflexivity|].
  apply IH.
Qed.

Lemma renameKeys_obj f ps :
  renameKeys f (VObj ps)
  = VObj (assign (map (fun kv => (f (fst kv), renameKeys f (snd kv))) ps) []).
Proof. simpl. now rewrite mapObject_assign. Qed.

(** Every property of a renamed mapping comes from a property of the
    mapping. *)
Lemma renameKeys_props_inv f ps k' x' :
  In (k', x') (assign (map (fun kv => (f (fst kv), renameKeys f (snd kv))) ps) []) ->
  exists k x, In (k, x) ps /\ k' = f k /\ x' = renameKeys f x.
Proof.
  intros H. apply In_assign_inv in H. destruct H as [H|[]].
  apply in_map_iff in H. destruct H as ([k x] & E & Hin).
  inversion E; subst. now exists k, x.
Qed.

Lemma all_keys_renameKeys f v k' :
  In k' (all_keys (renameKeys f v)) ->
  exists k, In k (all_keys v) /\ k' = f k.
Proof.
  revert k'.
  induction v as [| | | | |l IH|ps IH] using value_ind; intros k';
    try (simpl; tauto).
  - simpl. rewrite flat_map_concat_map, map_map, <- flat_map_concat_map.
    rewrite !in_flat_map. intros (a & Ha & Hk).
    rewrite Forall_forall in IH. destruct (IH a Ha k' Hk) as (k & Hin & E).
    exists k. split; [|assumption]. apply in_flat_map. now exists a.
  - rewrite renameKeys_obj. simpl. rewrite in_flat_map.
    intros ([k1 x1] & Hin & Hk).
    apply renameKeys_props_inv in Hin.
    destruct Hin as (k & x & Hin & -> & ->). simpl in Hk.
    destruct Hk as [<-|Hk].
    + exists k. split; [|reflexivity]. apply in_flat_map.
      exists (k, x). split; [assumption | now left].
    + rewrite Forall_forall in IH.
      destruct (IH (k, x) Hin k' Hk) as (k0 & Hin0 & E).
      exists k0. split; [|assumption]. apply in_flat_map.
      exists (k, x). split; [assumption | now right].
Qed.

Lemma all_chars_Forall p s :
  all_chars p s = true <-> Forall (fun c => p c = true) (list_ascii_of_string s).
Proof.
  induction s as [|c r IH]; simpl.
  - split; [constructor | reflexivity].
  - rewrite andb_true_iff, IH. split.
    + intros [? ?]. now constructor.
    + intros H. inversion H; subst. now split.
Qed.

Lemma is_env_char_spec c : is_env_char c = true <-> env_char c.
Proof.
  unfold is_env_char, is_upper, env_char.
  rewrite orb_true_iff, andb_true_iff, !N.leb_le, N.eqb_eq.
  split; (intros [H|H]; [left; exact H | right]).
  - unfold code in H. rewrite <- (ascii_N_embedding c), H. reflexivity.
  - now subst.
Qed.

End FlattenerFacts.

Section ImageExample.
Import Obj ObjFacts FlattenerFacts.

Variable startCase : string -> string.

Local Abbreviation transform := (flatStartCase startCase).
Local Abbreviation rename := (transformKey startCase).

Lemma image_example_pure s r :
  startCase "image" = "Image" ->
  startCase "size" = "Size" ->
  startCase "recommendedSize" = "Recommended Size" ->
  is_scalar s = true -> is_scalar r = true ->
  transform (example_image s r)
  = VObj [("Image Size", s); ("Image Recommended Size", r)].
Proof.
  intros Hi Hs Hr Ss Sr.
  assert (rename "image" = "Image") as Ei by (unfold transformKey; simpl; exact Hi).
  assert (rename "size" = "Size") as Es by (unfold transformKey; simpl; exact Hs).
  assert (rename "recommendedSize" = "Recommended Size") as Er
    by (unfold transformKey; simpl; exact Hr).
  unfold example_image.
  cbn [flatStartCase renameKeys fold_left fst snd].
  rewrite Ei, Es, Er.
  destruct s; try discriminate; destruct r; try discriminate; reflexivity.
Qed.

End ImageExample.

(** ** Flattening, as a list of assignments *)

Module FlatFacts.
Import Obj ObjFacts FlattenerFacts.

Lemma assign_app l1 l2 d : assign (l1 ++ l2) d = assign l2 (assign l1 d).
Proof. unfold assign. apply fold_left_app. Qed.

Lemma entries_app prev l1 l2 :
  entries prev (l1 ++ l2) = entries prev l1 ++ entries prev l2.
Proof. apply map_app. Qed.

Lemma entries_cons prev k l :
  entries prev (map (fun e => (k :: fst e, snd e)) l)
  = entries (Flat.newKey prev k) l.
Proof. unfold entries. rewrite map_map. reflexivity. Qed.

Lemma step_assign prev l :
  Forall (fun kv => forall prev key out,
            Flat.visit prev key (snd kv) out
            = assign (entries prev (leaves_at key (snd kv))) out) l ->
  forall out,
    Flat.step l prev out = assign (entries prev (leaves l)) out.
Proof.
  unfold Flat.step.
  induction 1 as [|kv l Hkv _ IH]; intros out; simpl; [reflexivity|].
  rewrite IH, Hkv, entries_app, assign_app. reflexivity.
Qed.

Lemma visit_assign v :
  forall prev key out,
    Flat.visit prev key v out = assign (entries prev (leaves_at key v)) out.
Proof.
  induction v as [| | | | |l IH|ps IH] using value_ind; intros prev key out;
    try reflexivity.
  destruct ps as [|p ps]; [reflexivity|].
  change (Flat.visit prev key (VObj (p :: ps)) out)
    with (Flat.step (p :: ps) (Flat.newKey prev key) out).
  rewrite (step_assign _ _ IH).
  change (leaves_at key (VObj (p :: ps)))
    with (map (fun e => (key :: fst e, snd e)) (leaves (p :: ps))).
  now rewrite entries_cons.
Qed.

(** Flattening assigns, in order, every stored value under the
    path-string of its key path. *)
Lemma flatten_assign o :
  Flat.flatten o = assign (entries "" (leaves o)) [].
Proof.
  unfold Flat.flatten. apply step_assign.
  apply Forall_forall. intros kv _. apply visit_assign.
Qed.

(** A value that is stored has one key path, of length one. *)
Ltac only_leaf :=
  simpl; intros [E|[]]; inversion E; subst; clear E.

Lemma In_leaves k x o e :
  In (k, x) o -> In e (leaves_at k x) -> In e (leaves o).
Proof.
  intros Hin He. unfold leaves. apply in_flat_map. now exists (k, x).
Qed.

Lemma In_leaves_inv o e :
  In e (leaves o) -> exists k x, In (k, x) o /\ In e (leaves_at k x).
Proof.
  unfold leaves. rewrite in_flat_map. intros ([k x] & Hin & He).
  now exists k, x.
Qed.

Lemma leaves_at_stored k v : stored v = true -> leaves_at k v = [([k], v)].
Proof. destruct v as [| | | | | |[|p ps]]; simpl; congruence. Qed.

Lemma leaves_at_mapping k p ps :
  leaves_at k (VObj (p :: ps))
  = map (fun e => (k :: fst e, snd e)) (leaves (p :: ps)).
Proof. reflexivity. Qed.

Lemma stored_false v : stored v = false -> exists p ps, v = VObj (p :: ps).
Proof.
  destruct v as [| | | | | |[|p ps]]; simpl; try discriminate.
  intros _. now exists p, ps.
Qed.

Lemma stored_renameKeys f v : stored (renameKeys f v) = stored v.
Proof.
  destruct v as [| | | | | |[|p ps]]; try reflexivity.
  rewrite renameKeys_obj.
  destruct (assign _ _) eqn:E; [|reflexivity].
  now apply assign_nonempty in E.
Qed.

(** A key path that ends in a stored value is a path of lookups. *)
Lemma leaves_get_path x :
  wf_value x = true ->
  forall k p v, In (p, v) (leaves_at k x) ->
  exists p1, p = k :: p1 /\ get_path x p1 = Some v.
Proof.
  induction x as [| | | | |l IH|ps IH] using value_ind; intros Hwf k p v;
    try (only_leaf; now exists []).
  destruct ps as [|q qs];
    [only_leaf; now exists []|].
  rewrite leaves_at_mapping, in_map_iff.
  intros ([p1 v1] & E & Hin). simpl in E. inversion E; subst. clear E.
  apply In_leaves_inv in Hin. destruct Hin as (k1 & x1 & Hin & Hl).
  simpl in Hwf. apply andb_true_iff in Hwf. destruct Hwf as [Hwf Hall].
  rewrite Forall_forall in IH.
  destruct (IH (k1, x1) Hin) with (k := k1) (p := p1) (v := v)
    as (p2 & -> & Hget); [|assumption|].
  - change (wf_value x1) with (wf_value (snd (k1, x1))).
    revert Hin. generalize (k1, x1). apply forallb_forall. exact Hall.
  - exists (k1 :: p2). split; [reflexivity|]. cbn [get_path].
    rewrite (In_get k1 x1 (q :: qs)); [assumption | now apply wf_NoDup | assumption].
Qed.

End FlatFacts.

(** ** Renaming and flattening together *)

Module RenameFacts.
Import Obj ObjFacts FlattenerFacts FlatFacts.

Lemma renameKeys_renamed f ps :
  renameKeys f (VObj ps) = VObj (renamed_props f ps).
Proof. apply renameKeys_obj. Qed.

Lemma renamed_props_inv f ps k' x' :
  In (k', x') (renamed_props f ps) ->
  exists k x, In (k, x) ps /\ k' = f k /\ x' = renameKeys f x.
Proof. apply renameKeys_props_inv. Qed.

Lemma renamed_props_nonempty f p ps : renamed_props f (p :: ps) <> [].
Proof. apply assign_nonempty. discriminate. Qed.

Lemma leaves_at_renamed f k p ps :
  leaves_at k (VObj (renamed_props f (p :: ps)))
  = map (fun e => (k :: fst e, snd e)) (leaves (renamed_props f (p :: ps))).
Proof.
  destruct (renamed_props f (p :: ps)) eqn:E; [|reflexivity].
  now apply renamed_props_nonempty in E.
Qed.

(** Every stored value of the renamed value comes from a stored value
    of the value, under the renamed key path. *)
Lemma leaves_at_renameKeys_inv f x :
  forall k p' v',
    In (p', v') (leaves_at (f k) (renameKeys f x)) ->
    exists p0 v0,
      In (p0, v0) (leaves_at k x) /\ p' = map f p0 /\ v' = renameKeys f v0.
Proof.
  induction x as [| | | | |l IH|ps IH] using value_ind; intros k p' v';
    try (only_leaf; eexists [k], _; split; [now left | split; reflexivity]).
  destruct ps as [|q qs].
  - only_leaf. exists [k], (VObj []). split; [now left | split; reflexivity].
  - rewrite renameKeys_renamed, leaves_at_renamed, leaves_at_mapping.
    rewrite in_map_iff. intros ([p1 v1] & E & Hin). simpl in E.
    inversion E; subst. clear E.
    apply In_leaves_inv in Hin. destruct Hin as (k1' & x1' & Hin & Hl).
    apply renamed_props_inv in Hin. destruct Hin as (k1 & x1 & Hin & -> & ->).
    rewrite Forall_forall in IH.
    destruct (IH (k1, x1) Hin k1 p1 v' Hl) as (p0 & v0 & H0 & -> & ->).
    exists (k :: p0), v0. split; [|split; reflexivity].
    apply in_map_iff. exists (p0, v0). split; [reflexivity|].
    now apply In_leaves with (k := k1) (x := x1).
Qed.

Lemma leaves_renamed_inv f ps p' v' :
  In (p', v') (leaves (renamed_props f ps)) ->
  exists p0 v0,
    In (p0, v0) (leaves ps) /\ p' = map f p0 /\ v' = renameKeys f v0.
Proof.
  intros Hin. apply In_leaves_inv in Hin.
  destruct Hin as (k' & x' & Hin & Hl).
  apply renamed_props_inv in Hin. destruct Hin as (k & x & Hin & -> & ->).
  apply leaves_at_renameKeys_inv in Hl.
  destruct Hl as (p0 & v0 & H0 & -> & ->).
  exists p0, v0. split; [|split; reflexivity].
  now apply In_leaves with (k := k) (x := x).
Qed.

Lemma leaves_at_all_stored x :
  forall k p v, In (p, v) (leaves_at k x) -> stored v = true.
Proof.
  induction x as [| | | | |l IH|ps IH] using value_ind; intros k p v;
    try (only_leaf; reflexivity).
  destruct ps as [|q qs];
    [only_leaf; reflexivity|].
  rewrite leaves_at_mapping, in_map_iff.
  intros ([p1 v1] & E & Hin). simpl in E. inversion E; subst. clear E.
  apply In_leaves_inv in Hin. destruct Hin as (k1 & x1 & Hin & Hl).
  rewrite Forall_forall in IH. apply (IH (k1, x1) Hin k1 p1 v Hl).
Qed.

Lemma wf_value_prop ps k x :
  wf_value (VObj ps) = true -> In (k, x) ps -> wf_value x = true.
Proof.
  simpl. rewrite andb_true_iff. intros [_ Hall] Hin.
  rewrite forallb_forall in Hall. apply (Hall (k, x) Hin).
Qed.

Lemma wf_value_NoDup ps : wf_value (VObj ps) = true -> NoDup (keys ps).
Proof.
  simpl. rewrite andb_true_iff. intros [Hwf _]. now apply wf_NoDup.
Qed.

(** The key paths of a mapping that end in a stored value are the
    non-empty paths of lookups that do. *)
Lemma leaves_lookup ps p v :
  wf_value (VObj ps) = true ->
  In (p, v) (leaves ps) ->
  p <> [] /\ get_path (VObj ps) p = Some v /\ stored v = true.
Proof.
  intros Hwf Hin. apply In_leaves_inv in Hin.
  destruct Hin as (k & x & Hin & Hl).
  pose proof (leaves_at_all_stored _ _ _ _ Hl) as Hs.
  apply leaves_get_path in Hl; [|now apply (wf_value_prop ps k)].
  destruct Hl as (p1 & -> & Hget).
  split; [discriminate|]. split; [|assumption].
  cbn [get_path].
  now rewrite (In_get k x ps (wf_value_NoDup ps Hwf) Hin).
Qed.

End RenameFacts.

Section Stores.
Import Obj ObjFacts FlattenerFacts FlatFacts RenameFacts.

Variable startCase : string -> string.

Local Abbreviation transform := (flatStartCase startCase).
Local Abbreviation rename := (transformKey startCase).

Lemma transform_mapping ps :
  transform (VObj ps) = VObj (Flat.flatten (renamed_props rename ps)).
Proof.
  cbn [flatStartCase]. now rewrite renameKeys_renamed.
Qed.

Lemma flatten_NoDup o : NoDup (keys (Flat.flatten o)).
Proof. rewrite flatten_assign. apply NoDup_assign. constructor. Qed.

(** Every entry of the output is a stored value of the input, its keys
    renamed, under the path-string of its key path. *)
Lemma flatten_entries_inv ps key val :
  wf_value (VObj ps) = true ->
  In (key, val) (Flat.flatten (renamed_props rename ps)) ->
  exists p v,
    p <> [] /\ get_path (VObj ps) p = Some v /\ stored v = true /\
    key = rendered startCase p /\ val = renameKeys rename v.
Proof.
  intros Hwf Hin. rewrite flatten_assign in Hin.
  apply In_assign_inv in Hin. destruct Hin as [Hin|[]].
  apply in_map_iff in Hin. destruct Hin as ([p' v'] & E & Hin).
  simpl in E. inversion E; subst.
  apply leaves_renamed_inv in Hin. destruct Hin as (p0 & v0 & Hin & -> & ->).
  apply (leaves_lookup ps p0 v0 Hwf) in Hin. destruct Hin as (Hne & Hget & Hs).
  now exists p0, v0.
Qed.

End Stores.

(** ** Path-strings *)

Module PathStringFacts.

Lemma append_assoc (a b c : string) : ((a ++ b) ++ c = a ++ (b ++ c))%string.
Proof. induction a as [|x a IH]; simpl; [reflexivity | now rewrite IH]. Qed.

Lemma append_nonempty (a b : string) : a <> "" -> (a ++ b)%string <> "".
Proof. destruct a; [congruence | discriminate]. Qed.

Lemma concat_cons sep x y l :
  String.concat sep (x :: y :: l) = (x ++ sep ++ String.concat sep (y :: l))%string.
Proof. reflexivity. Qed.

Lemma newKey_prefixed prev key :
  prev <> "" -> Flat.newKey prev key = (prev ++ " " ++ key)%string.
Proof.
  intros H. unfold Flat.newKey. now destruct (String.eqb_spec prev "").
Qed.

Lemma path_string_prefixed segs :
  forall prev, prev <> "" ->
  path_string prev segs = String.concat " " (prev :: segs).
Proof.
  induction segs as [|s r IH]; intros prev H; [reflexivity|].
  change (path_string prev (s :: r)) with (path_string (Flat.newKey prev s) r).
  rewrite newKey_prefixed by assumption.
  rewrite IH by now apply append_nonempty.
  destruct r as [|y l]; [reflexivity|].
  rewrite !concat_cons. now rewrite !append_assoc.
Qed.

(** The path-string of a key path is its segments joined by single
    spaces, after the empty segments it starts with. *)
Lemma path_string_joined segs :
  path_string "" segs = String.concat " " (skip_empty segs).
Proof.
  induction segs as [|s r IH]; [reflexivity|].
  change (path_string "" (s :: r)) with (path_string s r). simpl skip_empty.
  destruct (String.eqb_spec s "") as [->|Hne]; [exact IH|].
  now apply path_string_prefixed.
Qed.

End PathStringFacts.

Section LeafFacts.
Import Obj ObjFacts FlatFacts RenameFacts PathStringFacts.

Variable startCase : string -> string.

Local Abbreviation transform := (flatStartCase startCase).
Local Abbreviation rename := (transformKey startCase).

Lemma renameKeys_leaf f v : isObject v = false -> renameKeys f v = v.
Proof. now destruct v. Qed.

Lemma leaf_stored v : isObject v = false -> stored v = true.
Proof. now destruct v. Qed.

End LeafFacts.

(** * Further properties *)

(** ** Property stores: lookup, order and value maps *)

Module StoreFacts.
Import Obj ObjFacts.

Lemma get_replace k v o k2 :
  get k2 (replace k v o)
  = if String.eqb k2 k then (if has k o then Some v else None) else get k2 o.
Proof.
  unfold has, keys.
  induction o as [|[k' v'] r IH]; simpl.
  - now destruct (String.eqb k2 k).
  - destruct (String.eqb_spec k k') as [E|Hne]; simpl.
    + subst k'. now destruct (String.eqb k2 k).
    + rewrite IH. destruct (String.eqb_spec k2 k) as [E2|Hne2].
      * subst k2. destruct (String.eqb_spec k k'); [contradiction | reflexivity].
      * reflexivity.
Qed.

Lemma get_create k v o k2 :
  has k o = false ->
  get k2 (create k v o) = if String.eqb k2 k then Some v else get k2 o.
Proof.
  unfold has, keys.
  induction o as [|[k' v'] r IH]; simpl; intros H.
  - reflexivity.
  - apply orb_false_iff in H. destruct H as [Hk Hr].
    destruct (precedes k k'); simpl; [reflexivity|].
    rewrite (IH Hr). destruct (String.eqb_spec k2 k') as [->|Hne].
    + destruct (String.eqb_spec k' k) as [E|_]; [|reflexivity].
      subst. now rewrite String.eqb_refl in Hk.
    + reflexivity.
Qed.

(** Reading a store after an assignment. *)
Lemma get_set k v o k2 :
  get k2 (set k v o) = if String.eqb k2 k then Some v else get k2 o.
Proof.
  unfold set. destruct (has k o) eqn:E.
  - rewrite get_replace, E. reflexivity.
  - now apply get_create.
Qed.

Lemma get_assign_other l d k :
  ~ In k (keys l) -> get k (assign l d) = get k d.
Proof.
  revert d. induction l as [|[k' v'] l IH]; intros d Hn; simpl; [reflexivity|].
  simpl in Hn. rewrite IH by tauto. rewrite get_set.
  destruct (String.eqb_spec k k'); [subst; tauto | reflexivity].
Qed.

(** Of the assignments to one key the last one is read back. *)
Lemma get_assign_last a k v b d :
  ~ In k (keys b) -> get k (assign (a ++ (k, v) :: b) d) = Some v.
Proof.
  intros Hn. unfold assign. rewrite fold_left_app. simpl.
  fold (assign b (set k v (fold_left (fun acc kv => set (fst kv) (snd kv) acc) a d))).
  rewrite get_assign_other by assumption.
  now rewrite get_set, String.eqb_refl.
Qed.

Lemma get_assign_self o k : NoDup (keys o) -> get k (assign o []) = get k o.
Proof.
  intros Hd. destruct (get k o) as [v|] eqn:E.
  - apply In_get; [apply NoDup_assign; constructor|].
    apply In_assign; [now apply get_In|].
    intros v' Hin. apply (In_get _ _ _ Hd) in Hin. congruence.
  - destruct (get k (assign o [])) as [v|] eqn:E2; [|reflexivity].
    apply get_In, In_assign_inv in E2. destruct E2 as [H|[]].
    apply (In_get _ _ _ Hd) in H. congruence.
Qed.

(** *** Enumeration order is kept *)

Lemma precedes_asym k k' : precedes k k' = true -> precedes k' k = false.
Proof.
  unfold precedes.
  destruct (array_index k) as [n|], (array_index k') as [m|];
    try congruence.
  rewrite !N.ltb_lt, N.ltb_ge. lia.
Qed.

Lemma precedes_before k k' j :
  precedes k k' = true -> precedes j k' = false -> precedes j k = false.
Proof.
  unfold precedes.
  destruct (array_index k) as [n|], (array_index k') as [m|],
    (array_index j) as [i|]; try congruence.
  rewrite N.ltb_lt, !N.ltb_ge. lia.
Qed.

Lemma ordered_create k v o :
  ordered (keys o) = true -> ordered (keys (create k v o)) = true.
Proof.
  induction o as [|[k' v'] r IH]; simpl; intros H; [reflexivity|].
  apply andb_true_iff in H. destruct H as [Hall Hr].
  destruct (precedes k k') eqn:E; simpl.
  - rewrite (precedes_asym _ _ E). simpl. rewrite Hall, Hr, !andb_true_r.
    apply forallb_forall. intros j Hj. apply negb_true_iff.
    apply (precedes_before _ _ _ E). apply negb_true_iff.
    rewrite forallb_forall in Hall. now apply Hall.
  - rewrite (IH Hr), andb_true_r. apply forallb_forall. intros j Hj.
    apply keys_create in Hj. destruct Hj as [->|Hj].
    + now rewrite E.
    + rewrite forallb_forall in Hall. now apply Hall.
Qed.

Lemma wf_set k v o : wf o = true -> wf (set k v o) = true.
Proof.
  unfold wf. rewrite !andb_true_iff. intros [Hd Ho]. split.
  - apply distinct_NoDup, NoDup_set. now apply distinct_NoDup.
  - unfold set. destruct (has k o).
    + now rewrite keys_replace.
    + now apply ordered_create.
Qed.

Lemma wf_assign l d : wf d = true -> wf (assign l d) = true.
Proof.
  revert d. induction l as [|e l IH]; intros d H; simpl; [assumption|].
  apply IH. now apply wf_set.
Qed.

(** *** Assignments and maps over the values *)

Lemma keys_of_map_values g o : keys (map_values g o) = keys o.
Proof. unfold keys, map_values. now rewrite map_map. Qed.

Lemma replace_map_values g k v o :
  replace k (g v) (map_values g o) = map_values g (replace k v o).
Proof.
  induction o as [|[k' v'] r IH]; simpl; [reflexivity|].
  destruct (String.eqb k k'); simpl; [reflexivity | now rewrite IH].
Qed.

Lemma create_map_values g k v o :
  create k (g v) (map_values g o) = map_values g (create k v o).
Proof.
  induction o as [|[k' v'] r IH]; simpl; [reflexivity|].
  destruct (precedes k k'); simpl; [reflexivity | now rewrite IH].
Qed.

Lemma set_map_values g k v o :
  set k (g v) (map_values g o) = map_values g (set k v o).
Proof.
  unfold set, has. rewrite keys_of_map_values.
  destruct (existsb _ _); [apply replace_map_values | apply create_map_values].
Qed.

(** Assigning mapped values to a mapped store is mapping the store the
    assignments give. *)
Lemma assign_map_values g l d :
  assign (map_values g l) (map_values g d) = map_values g (assign l d).
Proof.
  revert d. induction l as [|[k v] l IH]; intros d; simpl; [reflexivity|].
  rewrite set_map_values. apply IH.
Qed.

End StoreFacts.

(** ** The flattener: what its result looks like *)

Module FlatShapeFacts.
Import Obj ObjFacts StoreFacts FlattenerFacts FlatFacts RenameFacts.

(** The key paths of a mapping whose values are all stored are its
    keys. *)
Lemma leaves_flat o :
  Forall (fun kv => stored (snd kv) = true) o ->
  leaves o = map (fun kv => ([fst kv], snd kv)) o.
Proof.
  unfold leaves. induction 1 as [|[k v] o Hs _ IH]; simpl; [reflexivity|].
  simpl in Hs. now rewrite (leaves_at_stored k v Hs), IH.
Qed.

Lemma entries_flat o :
  entries "" (map (fun kv => ([fst kv], snd kv)) o) = o.
Proof.
  unfold entries.
  induction o as [|[k v] o IH]; simpl; [reflexivity|]. rewrite IH.
  reflexivity.
Qed.

(** Flattening a mapping whose values are all stored assigns its
    properties to a fresh mapping. *)
Lemma flatten_flat o :
  Forall (fun kv => stored (snd kv) = true) o ->
  Flat.flatten o = assign o [].
Proof.
  intros H. now rewrite flatten_assign, (leaves_flat o H), entries_flat.
Qed.

Lemma flatten_all_stored o key val :
  In (key, val) (Flat.flatten o) -> stored val = true.
Proof.
  rewrite flatten_assign. intros H.
  apply In_assign_inv in H. destruct H as [H|[]].
  apply in_map_iff in H. destruct H as ([p v] & E & Hin).
  simpl in E. inversion E; subst.
  apply In_leaves_inv in Hin. destruct Hin as (k & x & _ & Hl).
  apply (leaves_at_all_stored _ _ _ _ Hl).
Qed.

Lemma renameKeys_mapping_free f v :
  mapping_free v = true -> renameKeys f v = v.
Proof.
  induction v as [| | | | |l IH|ps IH] using value_ind; simpl;
    try reflexivity; try discriminate.
  intros H. f_equal. rewrite forallb_forall in H. rewrite Forall_forall in IH.
  rewrite <- (map_id l) at 2. apply map_ext_in. intros a Ha. auto.
Qed.

Lemma mapping_free_stored v : mapping_free v = true -> stored v = true.
Proof. destruct v; simpl; congruence. Qed.

Lemma renamed_props_all_stored f ps :
  Forall (fun kv => stored (snd kv) = true) ps ->
  Forall (fun kv => stored (snd kv) = true) (renamed_props f ps).
Proof.
  intros H. apply Forall_forall. intros [k' x'] Hin.
  apply renamed_props_inv in Hin. destruct Hin as (k & x & Hin & -> & ->).
  simpl. rewrite stored_renameKeys. rewrite Forall_forall in H.
  apply (H (k, x) Hin).
Qed.

End FlatShapeFacts.

Section FlattenerShape.
Import Obj ObjFacts StoreFacts FlattenerFacts FlatFacts RenameFacts.
Import FlatShapeFacts.

Variable startCase : string -> string.

Local Abbreviation transform := (flatStartCase startCase).
Local Abbreviation rename := (transformKey startCase).

Lemma result_is_flat_pure x :
  isUndefined x = false -> isArray x = false ->
  exists out,
    transform x = VObj out /\
    NoDup (keys out) /\
    Forall (fun kv => stored (snd kv) = true) out.
Proof.
  intros Hu Ha. destruct x as [| | | | | |ps]; try discriminate;
    try (eexists; split; [reflexivity|]; split;
         [repeat constructor; simpl; tauto | repeat constructor]).
  exists (Flat.flatten (renamed_props rename ps)).
  split; [apply transform_mapping|]. split; [apply flatten_NoDup|].
  apply Forall_forall. intros [key val] Hin.
  apply (flatten_all_stored _ _ _ Hin).
Qed.

Lemma last_writer_pure a k v b :
  Forall (fun kv => stored (snd kv) = true) (a ++ (k, v) :: b) ->
  (forall k2, In k2 (keys b) -> rename k2 <> rename k) ->
  exists out,
    transform (VObj (a ++ (k, v) :: b)) = VObj out /\
    get (rename k) out = Some (renameKeys rename v).
Proof.
  intros Hs Hlast.
  exists (Flat.flatten (renamed_props rename (a ++ (k, v) :: b))).
  split; [apply transform_mapping|].
  rewrite flatten_flat by now apply renamed_props_all_stored.
  rewrite get_assign_self by (apply NoDup_assign; constructor).
  unfold renamed_props. rewrite map_app. simpl.
  apply get_assign_last.
  unfold keys. rewrite map_map. simpl. intros Hin.
  apply in_map_iff in Hin. destruct Hin as ([k2 x2] & E & Hin).
  apply (Hlast k2); [|assumption]. now apply (in_map fst) in Hin.
Qed.

Lemma keeps_env_mapping_pure ps :
  wf_value (VObj ps) = true ->
  Forall (fun kv => regex_test (fst kv) = true /\
                    mapping_free (snd kv) = true) ps ->
  transform (VObj ps) = VObj ps.
Proof.
  intros Hwf Hall. rewrite transform_mapping. f_equal.
  assert (Obj.wf ps = true) as Hps
    by (simpl in Hwf; now apply andb_true_iff in Hwf).
  assert (renamed_props rename ps = ps) as ->.
  { unfold renamed_props. rewrite <- (assign_wf ps Hps) at 2. f_equal.
    rewrite <- (map_id ps) at 2. apply map_ext_in. intros [k0 x] Hin.
    rewrite Forall_forall in Hall. destruct (Hall (k0, x) Hin) as [Hk Hx].
    simpl in *. unfold transformKey. rewrite Hk.
    now rewrite renameKeys_mapping_free. }
  rewrite flatten_flat; [now apply assign_wf|].
  revert Hall. apply Forall_impl. intros kv [_ H].
  now apply mapping_free_stored.
Qed.

Lemma keeps_plain_sequences_pure x :
  isArray x = true -> mapping_free x = true -> transform x = x.
Proof.
  induction x as [| | | | |l IH|ps IH] using value_ind; try discriminate.
  intros _ Hfree. cbn [flatStartCase]. f_equal.
  rewrite <- (map_id l) at 2. apply map_ext_in. intros e He.
  simpl in Hfree. rewrite forallb_forall in Hfree.
  rewrite Forall_forall in IH.
  destruct (isObject e) eqn:E; [|reflexivity].
  apply IH; [assumption | | now apply Hfree].
  specialize (Hfree e He). destruct e; try discriminate; reflexivity.
Qed.

End FlattenerShape.

(** ** Rewriting leaves and flattening commute *)

Module CommuteFacts.
Import Obj ObjFacts StoreFacts FlattenerFacts FlatFacts RenameFacts.

Section Rewriting.

Variable g : value -> value.
Hypothesis g_leaf : forall a, isObject a = false -> isObject (g a) = false.

Local Abbreviation R := (rewrite_leaves g).
Local Abbreviation Rsnd :=
  (fun e : list string * value => (fst e, rewrite_leaves g (snd e))).

Lemma rewrite_leaves_obj ps : R (VObj ps) = VObj (map_values R ps).
Proof. reflexivity. Qed.

Lemma isObject_rewrite v : isObject (R v) = isObject v.
Proof. destruct v; simpl; try reflexivity; now apply g_leaf. Qed.

Lemma stored_g a : isObject a = false -> stored (g a) = true.
Proof. intros H. apply g_leaf in H. now destruct (g a). Qed.

Lemma renamed_props_rewrite f ps :
  Forall (fun kv => renameKeys f (R (snd kv)) = R (renameKeys f (snd kv))) ps ->
  renamed_props f (map_values R ps) = map_values R (renamed_props f ps).
Proof.
  intros H. unfold renamed_props.
  change (@nil (string * value)) with (map_values R []) at 1.
  rewrite <- assign_map_values. f_equal.
  unfold map_values. rewrite !map_map.
  apply map_ext_in. intros kv Hin. simpl. f_equal.
  rewrite Forall_forall in H. now apply H.
Qed.

Lemma renameKeys_rewrite f v :
  renameKeys f (R v) = R (renameKeys f v).
Proof.
  induction v as [| | | | |l IH|ps IH] using value_ind;
    try (simpl; apply renameKeys_leaf; now apply g_leaf).
  - simpl. f_equal. rewrite !map_map. apply map_ext_in. intros a Ha.
    rewrite Forall_forall in IH. now apply IH.
  - rewrite rewrite_leaves_obj, !renameKeys_renamed, rewrite_leaves_obj.
    f_equal. now apply renamed_props_rewrite.
Qed.

Lemma leaves_rewrite l :
  Forall (fun kv => forall k,
            leaves_at k (R (snd kv)) = map Rsnd (leaves_at k (snd kv))) l ->
  leaves (map_values R l) = map Rsnd (leaves l).
Proof.
  unfold leaves. induction 1 as [|kv l H _ IH]; simpl; [reflexivity|].
  now rewrite map_app, H, IH.
Qed.

Lemma leaves_at_rewrite v :
  forall k, leaves_at k (R v) = map Rsnd (leaves_at k v).
Proof.
  induction v as [| | | | |l IH|ps IH] using value_ind; intros k;
    try (simpl; now rewrite leaves_at_stored by now apply stored_g).
  - reflexivity.
  - destruct ps as [|p ps]; [reflexivity|].
    rewrite rewrite_leaves_obj.
    change (map_values R (p :: ps))
      with ((fst p, R (snd p)) :: map_values R ps).
    rewrite leaves_at_mapping.
    change ((fst p, R (snd p)) :: map_values R ps)
      with (map_values R (p :: ps)).
    rewrite (leaves_rewrite _ IH), leaves_at_mapping, !map_map.
    reflexivity.
Qed.

Lemma entries_rewrite prev l :
  entries prev (map Rsnd l) = map_values R (entries prev l).
Proof. unfold entries, map_values. now rewrite !map_map. Qed.

Lemma flatten_rewrite o :
  Flat.flatten (map_values R o) = map_values R (Flat.flatten o).
Proof.
  rewrite !flatten_assign.
  rewrite leaves_rewrite
    by (apply Forall_forall; intros kv _; apply leaves_at_rewrite).
  rewrite entries_rewrite.
  change (@nil (string * value)) with (map_values R []) at 1.
  apply assign_map_values.
Qed.

End Rewriting.

(** *** What renaming and flattening build is well formed *)

Lemma wf_renameKeys f v : wf_value (renameKeys f v) = true.
Proof.
  induction v as [| | | | |l IH|ps IH] using value_ind; try reflexivity.
  - simpl. apply forallb_forall. intros a Ha.
    apply in_map_iff in Ha. destruct Ha as (a0 & <- & Ha0).
    rewrite Forall_forall in IH. now apply IH.
  - rewrite renameKeys_renamed. cbn [wf_value]. apply andb_true_iff. split.
    + apply wf_assign. reflexivity.
    + apply forallb_forall. intros [k' x'] Hin.
      apply renamed_props_inv in Hin. destruct Hin as (k & x & Hin & -> & ->).
      rewrite Forall_forall in IH. apply (IH (k, x) Hin).
Qed.

Lemma wf_leaves_at x :
  wf_value x = true ->
  forall k p v, In (p, v) (leaves_at k x) -> wf_value v = true.
Proof.
  induction x as [| | | | |l IH|ps IH] using value_ind; intros Hwf k p v;
    try (only_leaf; assumption).
  destruct ps as [|q qs]; [only_leaf; assumption|].
  rewrite leaves_at_mapping, in_map_iff.
  intros ([p1 v1] & E & Hin). simpl in E. inversion E; subst. clear E.
  apply In_leaves_inv in Hin. destruct Hin as (k1 & x1 & Hin & Hl).
  rewrite Forall_forall in IH.
  apply (IH (k1, x1) Hin (wf_value_prop _ _ _ Hwf Hin) k1 p1 v Hl).
Qed.

Lemma wf_flatten o :
  Forall (fun kv => wf_value (snd kv) = true) o ->
  wf_value (VObj (Flat.flatten o)) = true.
Proof.
  intros Ho. cbn [wf_value]. apply andb_true_iff. split.
  - rewrite flatten_assign. apply wf_assign. reflexivity.
  - apply forallb_forall. intros [key val] Hin. simpl.
    rewrite flatten_assign in Hin.
    apply In_assign_inv in Hin. destruct Hin as [Hin|[]].
    apply in_map_iff in Hin. destruct Hin as ([p v] & E & Hin).
    simpl in E. inversion E; subst.
    apply In_leaves_inv in Hin. destruct Hin as (k & x & Hin & Hl).
    rewrite Forall_forall in Ho.
    apply (wf_leaves_at x (Ho (k, x) Hin) k p val Hl).
Qed.

End CommuteFacts.

Section Commute.
Import Obj ObjFacts StoreFacts FlattenerFacts FlatFacts RenameFacts.
Import CommuteFacts AnonymizerFacts.

Variable startCase : string -> string.

Local Abbreviation transform := (flatStartCase startCase).
Local Abbreviation rename := (transformKey startCase).

Lemma wf_transform x : wf_value (transform x) = true.
Proof.
  induction x as [| | | | |l IH|ps IH] using value_ind; try reflexivity.
  - cbn [flatStartCase wf_value]. apply forallb_forall.
    intros a Ha. apply in_map_iff in Ha. destruct Ha as (e & <- & He).
    rewrite Forall_forall in IH.
    destruct (isObject e) eqn:E; [now apply IH | now destruct e].
  - rewrite transform_mapping. apply wf_flatten.
    apply Forall_forall. intros [k' x'] Hin.
    apply renamed_props_inv in Hin. destruct Hin as (k & x & _ & -> & ->).
    apply wf_renameKeys.
Qed.

Section Rewriting.

Variable g : value -> value.
Hypothesis g_leaf : forall a, isObject a = false -> isObject (g a) = false.
Hypothesis g_undef :
  forall a, isObject a = false -> isUndefined (g a) = isUndefined a.

Lemma transform_scalar a :
  isObject a = false -> isUndefined a = false ->
  transform a = VObj [("Value", a)].
Proof. destruct a; try discriminate; reflexivity. Qed.

(** Rewriting the leaves and then flattening is flattening and then
    rewriting the leaves. *)
Lemma transform_rewrite x :
  transform (rewrite_leaves g x) = rewrite_leaves g (transform x).
Proof.
  induction x as [| | | | |l IH|ps IH] using value_ind;
    try (simpl; apply transform_scalar;
         [now apply g_leaf | now rewrite g_undef]).
  - simpl. pose proof (g_undef VUndefined eq_refl) as H.
    destruct (g VUndefined); try discriminate. reflexivity.
  - cbn [rewrite_leaves flatStartCase]. f_equal.
    rewrite !map_map. apply map_ext_in. intros e He.
    rewrite (isObject_rewrite g g_leaf).
    rewrite Forall_forall in IH.
    destruct (isObject e); [now apply IH | reflexivity].
  - rewrite (rewrite_leaves_obj g), !transform_mapping, (rewrite_leaves_obj g).
    f_equal.
    rewrite (renamed_props_rewrite g)
      by (apply Forall_forall; intros kv _;
          apply (renameKeys_rewrite g g_leaf)).
    apply (flatten_rewrite g g_leaf).
Qed.

End Rewriting.

Variable host : Path.platform.

Lemma hideValue_undef a :
  isObject a = false -> isUndefined (hideValue host a) = isUndefined a.
Proof. now destruct a. Qed.

Lemma commute_pure x :
  wf_value x = true ->
  hideAbsolutePathsInObject host (transform x)
  = transform (hideAbsolutePathsInObject host x).
Proof.
  intros Hwf.
  rewrite (hideAbsolutePathsInObject_rewrite host x Hwf).
  rewrite (hideAbsolutePathsInObject_rewrite host _ (wf_transform x)).
  symmetry. apply transform_rewrite.
  - apply hideValue_leaf.
  - apply hideValue_undef.
Qed.

End Commute.

(** ** The anonymizer: what is left of the strings *)

Module SegmentFacts.
Import Path PathFacts.

Lemma list_of_append (a b : string) :
  list_ascii_of_string (a ++ b)
  = list_ascii_of_string a ++ list_ascii_of_string b.
Proof. induction a as [|c a IH]; simpl; [reflexivity | now rewrite IH]. Qed.

Lemma string_of_app (a b : list ascii) :
  string_of_list_ascii (a ++ b)
  = (string_of_list_ascii a ++ string_of_list_ascii b)%string.
Proof. induction a as [|c a IH]; simpl; [reflexivity | now rewrite IH]. Qed.

Lemma sep_not_letter pf c : is_sep pf c = true -> is_letter c = false.
Proof.
  unfold is_letter. destruct pf; simpl; unfold is_slash, is_backslash;
    rewrite ?orb_true_iff, !N.eqb_eq; intros H;
    [|destruct H as [H|H]]; rewrite H; reflexivity.
Qed.

Lemma sep_not_colon pf c : is_sep pf c = true -> is_colon c = false.
Proof.
  unfold is_colon. destruct pf; simpl; unfold is_slash, is_backslash;
    rewrite ?orb_true_iff, !N.eqb_eq; intros H;
    [|destruct H as [H|H]]; rewrite H; reflexivity.
Qed.

(** What the scan runs over is the path, or the path after its first
    two characters. *)
Lemma scanned_suffix pf l : exists pfx, l = pfx ++ scanned pf l.
Proof.
  destruct pf; simpl; [now exists []|].
  destruct l as [|c [|c1 r]]; try (now exists []).
  destruct (is_letter c && is_colon c1); [now exists [c; c1] | now exists []].
Qed.

(** A drive letter and colon are never taken off a separator. *)
Lemma scanned_keeps pf dir c rest :
  is_sep pf c = true ->
  exists dir', scanned pf (dir ++ c :: rest) = dir' ++ c :: rest.
Proof.
  intros Hc. destruct pf; [now exists dir|].
  destruct dir as [|d [|d1 dir]]; simpl.
  - rewrite (sep_not_letter _ _ Hc). destruct rest; now exists [].
  - rewrite (sep_not_colon _ _ Hc), andb_false_r. now exists [d].
  - destruct (is_letter d && is_colon d1);
      [now exists dir | now exists (d :: d1 :: dir)].
Qed.

Lemma drop_while_app p a b :
  forallb p a = true -> drop_while p (a ++ b) = drop_while p b.
Proof.
  induction a as [|c a IH]; simpl; [reflexivity|].
  rewrite andb_true_iff. intros [-> H]. now apply IH.
Qed.

Lemma take_while_app p a c b :
  forallb p a = true -> p c = false -> take_while p (a ++ c :: b) = a.
Proof.
  induction a as [|x a IH]; simpl; intros Ha Hc.
  - now rewrite Hc.
  - apply andb_true_iff in Ha. destruct Ha as [-> Ha]. now rewrite IH.
Qed.

Lemma drop_while_stop p l :
  (forall c r, l = c :: r -> p c = false) -> drop_while p l = l.
Proof.
  destruct l as [|c r]; [reflexivity|]. intros H. simpl.
  now rewrite (H c r eq_refl).
Qed.

(** The scan of a path that ends in a separator, a name and separators
    gives the name. *)
Lemma scan_name pf dir c name trail :
  is_sep pf c = true ->
  name <> [] ->
  forallb (fun x => negb (is_sep pf x)) name = true ->
  forallb (is_sep pf) trail = true ->
  scan pf true (rev (dir ++ c :: name ++ trail)) [] = name.
Proof.
  intros Hc Hne Hname Htrail.
  rewrite scan_segment.
  replace (rev (dir ++ c :: name ++ trail))
    with (rev trail ++ rev name ++ c :: rev dir)
    by (rewrite rev_app_distr; simpl; rewrite rev_app_distr, <- !app_assoc;
        reflexivity).
  rewrite drop_while_app by now rewrite forallb_rev.
  rewrite drop_while_stop.
  - rewrite take_while_app; [apply rev_involutive | now rewrite forallb_rev |].
    now rewrite Hc.
  - intros x r E. destruct (rev name) as [|y l] eqn:En.
    + apply (f_equal (@rev ascii)) in En. rewrite rev_involutive in En.
      contradiction.
    + simpl in E. inversion E; subst.
      assert (forallb (fun x => negb (is_sep pf x)) (rev name) = true) as H
        by now rewrite forallb_rev.
      rewrite En in H. simpl in H. apply andb_true_iff in H.
      destruct H as [H _]. now apply negb_true_iff in H.
Qed.

Lemma scan_separators pf l :
  forallb (is_sep pf) l = true -> scan pf true l [] = [].
Proof.
  induction l as [|c r IH]; simpl; [reflexivity|].
  rewrite andb_true_iff. intros [-> H]. now apply IH.
Qed.

End SegmentFacts.

Section AnonymizerStrings.
Import AnonymizerFacts PathFacts SegmentFacts.

Variable host : Path.platform.

Local Abbreviation hide := (hideAbsolutePathsInObject host).

Lemma hidePath_harmless s : harmless host (hidePath host s) = true.
Proof.
  unfold harmless.
  destruct (hidePath_cases host s) as (Hd & Ha & Hr).
  destruct (is_device s) eqn:D; [now rewrite Hd, D|].
  destruct (Path.isAbsolute host s) eqn:A.
  - rewrite Ha by reflexivity.
    rewrite (separator_free_relative _ _ (basename_separator_free host s)).
    apply orb_true_r.
  - rewrite Hr by reflexivity. rewrite A. apply orb_true_r.
Qed.

(** The strings the rewriting leaves as they are. *)
Lemma hidePath_fixed_iff s : hidePath host s = s <-> harmless host s = true.
Proof.
  unfold harmless.
  destruct (hidePath_cases host s) as (Hd & Ha & Hr).
  destruct (is_device s) eqn:D; [split; auto|].
  destruct (Path.isAbsolute host s) eqn:A; simpl.
  - split; [|discriminate]. intros E. rewrite Ha in E by reflexivity.
    pose proof (basename_separator_free host s) as F. rewrite E in F.
    apply separator_free_relative in F. congruence.
  - split; auto.
Qed.

Lemma string_leaves_rewrite x :
  string_leaves (rewrite_leaves (hideValue host) x)
  = map (hidePath host) (string_leaves x).
Proof.
  induction x as [| | | | |l IH|ps IH] using value_ind; try reflexivity.
  - simpl. induction IH as [|a l Ha _ IHl]; simpl; [reflexivity|].
    now rewrite map_app, Ha, IHl.
  - simpl. induction IH as [|a l Ha _ IHl]; simpl; [reflexivity|].
    now rewrite map_app, Ha, IHl.
Qed.

Lemma map_fixed {A} (f : A -> A) l :
  map f l = l <-> Forall (fun a => f a = a) l.
Proof.
  induction l as [|a l IH]; simpl.
  - split; [constructor | reflexivity].
  - split.
    + intros E. injection E as Ea El. constructor; [assumption|].
      now apply IH.
    + intros H. inversion H; subst. f_equal; [assumption | now apply IH].
Qed.

Lemma rewrite_fixed_iff x :
  rewrite_leaves (hideValue host) x = x
  <-> Forall (fun s => harmless host s = true) (string_leaves x).
Proof.
  induction x as [| | | | |l IH|ps IH] using value_ind;
    try (simpl; split; [constructor | reflexivity]).
  - simpl. split.
    + intros E. injection E as E'. constructor; [|constructor].
      now apply hidePath_fixed_iff.
    + intros H. inversion H; subst. f_equal. now apply hidePath_fixed_iff.
  - simpl. split.
    + intros E. injection E as El. apply map_fixed in El.
      induction IH as [|a l Ha _ IHl]; simpl; [constructor|].
      inversion El; subst. apply Forall_app. split; [now apply Ha | auto].
    + intros H. f_equal. apply map_fixed.
      induction IH as [|a l Ha _ IHl]; simpl in *; constructor.
      * apply Ha. now apply Forall_app in H.
      * apply IHl. now apply Forall_app in H.
  - simpl. split.
    + intros E. injection E as El. apply map_fixed in El.
      induction IH as [|[k v] l Ha _ IHl]; simpl; [constructor|].
      inversion El as [|? ? E1 E2]; subst. simpl in *.
      apply Forall_app. split; [|auto]. apply Ha. congruence.
    + intros H. f_equal. apply map_fixed.
      induction IH as [|[k v] l Ha _ IHl]; simpl in *; constructor.
      * simpl. f_equal. apply Ha. now apply Forall_app in H.
      * apply IHl. now apply Forall_app in H.
Qed.

(** X6: in the output no string leaf is an absolute path, unless it
    starts with one of the two device prefixes. *)
Theorem anonymizer_leaves_no_absolute_path x :
  wf_value x = true ->
  Forall (fun s => harmless host s = true) (string_leaves (hide x)).
Proof.
  intros Hwf. rewrite hideAbsolutePathsInObject_rewrite by assumption.
  rewrite string_leaves_rewrite. apply Forall_forall. intros s Hs.
  apply in_map_iff in Hs. destruct Hs as (s0 & <- & _).
  apply hidePath_harmless.
Qed.

(** X7: the output is the input itself exactly when no string leaf of
    the input is an absolute path other than a device. *)
Theorem anonymizer_fixed_points x :
  wf_value x = true ->
  (hide x = x
   <-> Forall (fun s => harmless host s = true) (string_leaves x)).
Proof.
  intros Hwf. rewrite hideAbsolutePathsInObject_rewrite by assumption.
  apply rewrite_fixed_iff.
Qed.

Lemma append_empty (s : string) : (s ++ "")%string = s.
Proof. induction s as [|c s IH]; simpl; [reflexivity | now rewrite IH]. Qed.

Lemma hidePath_part s :
  exists pre post, s = (pre ++ hidePath host s ++ post)%string.
Proof.
  destruct (hidePath_cases host s) as (Hd & Ha & Hr).
  assert (exists pre post, s = (pre ++ s ++ post)%string) as Hself
    by (exists "", ""; simpl; now rewrite append_empty).
  destruct (is_device s) eqn:D; [now rewrite Hd|].
  destruct (Path.isAbsolute host s) eqn:A; [|now rewrite Hr].
  rewrite Ha by reflexivity.
  destruct (basename_final_segment host s) as (_ & dir & trail & E & _).
  destruct (scanned_suffix host (list_ascii_of_string s)) as (pfx & Es).
  rewrite E in Es.
  exists (string_of_list_ascii (pfx ++ dir)), (string_of_list_ascii trail).
  rewrite <- (string_of_list_ascii_of_string (Path.basename host s)) at 1.
  rewrite <- !string_of_app, <- app_assoc, <- Es.
  now rewrite string_of_list_ascii_of_string.
Qed.

(** X8: every string leaf of the output is a part of the string leaf at
    its place in the input: characters are only taken off its two
    ends. *)
Theorem anonymizer_strings_are_parts x :
  wf_value x = true ->
  Forall2 (fun s r => exists pre post, s = (pre ++ r ++ post)%string)
    (string_leaves x) (string_leaves (hide x)).
Proof.
  intros Hwf. rewrite hideAbsolutePathsInObject_rewrite by assumption.
  rewrite string_leaves_rewrite.
  induction (string_leaves x) as [|s l IH]; simpl; constructor.
  - apply hidePath_part.
  - exact IH.
Qed.

End AnonymizerStrings.

Section AnonymizerEdges.
Import AnonymizerFacts PathFacts SegmentFacts.

Variable host : Path.platform.

Local Abbreviation hide := (hideAbsolutePathsInObject host).

Lemma prefix_cons a t b s :
  String.prefix (String a t) (String b s) = true ->
  a = b /\ String.prefix t s = true.
Proof. simpl. destruct (ascii_dec a b); [now split | discriminate]. Qed.

(** A device prefix holds a character that is no separator. *)
Lemma device_not_separators s :
  forallb (Path.is_sep host) (list_ascii_of_string s) = true ->
  is_device s = false.
Proof.
  intros Hall. destruct (is_device s) eqn:D; [|reflexivity]. exfalso.
  unfold is_device, startsWith in D. apply orb_true_iff in D.
  destruct D as [D|D].
  - destruct s as [|c0 s]; [discriminate|].
    apply prefix_cons in D. destruct D as [_ D].
    destruct s as [|c1 s]; [discriminate|].
    apply prefix_cons in D. destruct D as [<- _].
    simpl in Hall. rewrite !andb_true_iff in Hall.
    destruct Hall as (_ & H & _). now destruct host.
  - destruct s as [|c0 s]; [discriminate|].
    apply prefix_cons in D. destruct D as [_ D].
    destruct s as [|c1 s]; [discriminate|].
    apply prefix_cons in D. destruct D as [_ D].
    destruct s as [|c2 s]; [discriminate|].
    apply prefix_cons in D. destruct D as [<- _].
    simpl in Hall. rewrite !andb_true_iff in Hall.
    destruct Hall as (_ & _ & H & _). now destruct host.
Qed.

Lemma separator_absolute c s :
  Path.is_sep host c = true -> Path.isAbsolute host (String c s) = true.
Proof. destruct host; simpl; intros H; [assumption | now rewrite H]. Qed.

Lemma scanned_separators l :
  forallb (Path.is_sep host) l = true -> Path.scanned host l = l.
Proof.
  destruct host; [reflexivity|]. destruct l as [|c [|c1 r]]; try reflexivity.
  simpl. rewrite andb_true_iff. intros [H _].
  rewrite (sep_not_letter Path.win32 c); [reflexivity|]. exact H.
Qed.

(** X10: a path made of separators only, such as the root directory,
    is replaced by the empty string. *)
Theorem anonymizer_root_becomes_empty s :
  s <> "" ->
  forallb (Path.is_sep host) (list_ascii_of_string s) = true ->
  hide (VStr s) = VStr "".
Proof.
  intros Hne Hall. cbn [hideAbsolutePathsInObject deepMapValues hideValue].
  f_equal. destruct (hidePath_cases host s) as (_ & Ha & _).
  rewrite Ha.
  - unfold Path.basename. rewrite scanned_separators by assumption.
    rewrite scan_separators; [reflexivity | now rewrite forallb_rev].
  - now apply device_not_separators.
  - destruct s as [|c s]; [congruence|]. apply separator_absolute.
    simpl in Hall. now apply andb_true_iff in Hall.
Qed.

(** X11: of an absolute path that is no device and ends in a separator,
    a name without separators and any number of separators, only the
    name is kept, whatever comes before. *)
Theorem anonymizer_keeps_last_name dir c name trail :
  Path.is_sep host c = true ->
  name <> "" ->
  separator_free host name = true ->
  forallb (Path.is_sep host) (list_ascii_of_string trail) = true ->
  is_device (dir ++ String c (name ++ trail)) = false ->
  Path.isAbsolute host (dir ++ String c (name ++ trail)) = true ->
  hide (VStr (dir ++ String c (name ++ trail))) = VStr name.
Proof.
  intros Hc Hne Hname Htrail Hdev Habs.
  cbn [hideAbsolutePathsInObject deepMapValues hideValue]. f_equal.
  destruct (hidePath_cases host (dir ++ String c (name ++ trail)))
    as (_ & Ha & _).
  rewrite (Ha Hdev Habs). unfold Path.basename.
  rewrite list_of_append. cbn [list_ascii_of_string]. rewrite list_of_append.
  destruct (scanned_keeps host (list_ascii_of_string dir) c
              (list_ascii_of_string name ++ list_ascii_of_string trail) Hc)
    as (dir' & ->).
  rewrite scan_name; try assumption.
  - apply string_of_list_ascii_of_string.
  - destruct name; [congruence | discriminate].
Qed.

End AnonymizerEdges.

Section FlattenerOrder.
Import Obj ObjFacts StoreFacts FlatFacts RenameFacts FlatShapeFacts.

Variable startCase : string -> string.

Local Abbreviation transform := (flatStartCase startCase).
Local Abbreviation rename := (transformKey startCase).

Lemma flat_mapping_pure ps :
  Forall (fun kv => stored (snd kv) = true) ps ->
  Obj.wf (map (fun kv => (rename (fst kv), renameKeys rename (snd kv))) ps)
  = true ->
  transform (VObj ps)
  = VObj (map (fun kv => (rename (fst kv), renameKeys rename (snd kv))) ps).
Proof.
  intros Hs Hwf. rewrite transform_mapping. f_equal.
  rewrite flatten_flat by now apply renamed_props_all_stored.
  unfold renamed_props. now rewrite !(assign_wf _ Hwf).
Qed.

End FlattenerOrder.

(** ** A value that is overwritten leaves no trace *)

Module OverwriteFacts.
Import Obj ObjFacts StoreFacts.

Lemma agree_refl K o : agree_except K o o.
Proof. induction o; constructor; auto. Qed.

Lemma agree_keys K o1 o2 : agree_except K o1 o2 -> keys o1 = keys o2.
Proof.
  induction 1 as [|e1 e2 o1 o2 [E _] _ IH]; simpl; [reflexivity|].
  now rewrite E, IH.
Qed.

Lemma agree_replace K k v1 v2 o1 o2 :
  (k <> K -> v1 = v2) ->
  agree_except K o1 o2 ->
  agree_except K (replace k v1 o1) (replace k v2 o2).
Proof.
  intros Hv. induction 1 as [|[k1 x1] [k2 x2] o1 o2 [E Hx] H IH]; simpl.
  - constructor.
  - simpl in E. subst k2. destruct (String.eqb_spec k k1).
    + constructor; [|assumption]. split; [reflexivity | exact Hv].
    + constructor; [|assumption]. now split.
Qed.

Lemma agree_create K k v1 v2 o1 o2 :
  (k <> K -> v1 = v2) ->
  agree_except K o1 o2 ->
  agree_except K (create k v1 o1) (create k v2 o2).
Proof.
  intros Hv. induction 1 as [|[k1 x1] [k2 x2] o1 o2 [E Hx] H IH]; simpl.
  - constructor; [|constructor]. split; [reflexivity | exact Hv].
  - simpl in E. subst k2. destruct (precedes k k1).
    + constructor; [split; [reflexivity | exact Hv]|].
      constructor; [now split | assumption].
    + constructor; [now split | assumption].
Qed.

Lemma agree_set K k v1 v2 o1 o2 :
  (k <> K -> v1 = v2) ->
  agree_except K o1 o2 ->
  agree_except K (set k v1 o1) (set k v2 o2).
Proof.
  intros Hv H. unfold set, has. rewrite (agree_keys _ _ _ H).
  destruct (existsb _ _); [now apply agree_replace | now apply agree_create].
Qed.

Lemma agree_assign K l o1 o2 :
  agree_except K o1 o2 -> agree_except K (assign l o1) (assign l o2).
Proof.
  revert o1 o2. induction l as [|[k v] l IH]; intros o1 o2 H; simpl;
    [assumption|].
  apply IH. now apply agree_set.
Qed.

Lemma agree_absent K o1 o2 :
  ~ In K (keys o1) -> agree_except K o1 o2 -> o1 = o2.
Proof.
  unfold keys. intros Hn H.
  induction H as [|[k1 x1] [k2 x2] o1 o2 [E Hx] H IH]; [reflexivity|].
  simpl in *. subst k2. f_equal.
  - f_equal. apply Hx. intros ->. tauto.
  - apply IH. tauto.
Qed.

(** Stores that agree except under [K], and in which [K] occurs at most
    once, are made the same by an assignment to [K]. *)
Lemma agree_set_same K y o1 o2 :
  NoDup (keys o1) ->
  agree_except K o1 o2 -> set K y o1 = set K y o2.
Proof.
  intros Hd H. unfold set.
  assert (has K o2 = has K o1) as ->
    by (unfold has; now rewrite (agree_keys _ _ _ H)).
  destruct (has K o1) eqn:E.
  - clear E. revert Hd.
    induction H as [|[k1 x1] [k2 x2] o1 o2 [E Hx] H IH]; intros Hd; simpl;
      [reflexivity|].
    simpl in E, Hx. subst k2.
    unfold keys in Hd. simpl in Hd. inversion Hd as [|? ? Hn Hd']; subst.
    destruct (String.eqb_spec K k1) as [->|Hne].
    + f_equal. now apply (agree_absent k1).
    + rewrite Hx by congruence. f_equal. now apply IH.
  - apply has_false in E. now rewrite (agree_absent _ _ _ E H).
Qed.

End OverwriteFacts.

Section Overwrite.
Import Obj ObjFacts StoreFacts OverwriteFacts.

Variable startCase : string -> string.

Local Abbreviation transform := (flatStartCase startCase).
Local Abbreviation rename := (transformKey startCase).

Lemma overwritten_value_pure a k v w b k' v' c :
  transformKey startCase k = transformKey startCase k' ->
  flatStartCase startCase
    (VObj (a ++ (k, v) :: b ++ (k', v') :: c))
  = flatStartCase startCase
      (VObj (a ++ (k, w) :: b ++ (k', v') :: c)).
Proof.
  intros E. rewrite !transform_mapping. do 2 f_equal.
  unfold renamed_props, assign.
  rewrite !map_app. cbn [map fst snd]. rewrite !map_app. cbn [map fst snd].
  rewrite !fold_left_app. cbn [fold_left fst snd].
  rewrite !fold_left_app. cbn [fold_left fst snd].
  f_equal. rewrite <- E.
  apply agree_set_same.
  - apply NoDup_assign, NoDup_set, NoDup_assign. constructor.
  - apply agree_assign. apply agree_set; [tauto | apply agree_refl].
Qed.

End Overwrite.


(** * What is thrown, and what is returned *)

Module ThrowFacts.
Import Obj ObjFacts.

Lemma existsb_flat_map {A B} (p : B -> bool) (f : A -> list B) l :
  existsb p (flat_map f l) = existsb (fun a => existsb p (f a)) l.
Proof.
  induction l as [|a l IH]; simpl; [reflexivity|].
  now rewrite existsb_app, IH.
Qed.

Lemma shadows_arr l : shadows (VArr l) = existsb shadows l.
Proof. unfold shadows. simpl. apply existsb_flat_map. Qed.

Lemma shadows_cons k x ps :
  shadows (VObj ((k, x) :: ps))
  = String.eqb "hasOwnProperty" k || shadows x || shadows (VObj ps).
Proof. unfold shadows. simpl. now rewrite existsb_app, orb_assoc. Qed.

Lemma shadows_obj ps :
  shadows (VObj ps)
  = has "hasOwnProperty" ps || existsb (fun kv => shadows (snd kv)) ps.
Proof.
  unfold has, keys. induction ps as [|[k x] ps IH]; [reflexivity|].
  rewrite shadows_cons, IH. cbn [map fst snd existsb].
  generalize (String.eqb "hasOwnProperty" k) (shadows x)
    (existsb (String.eqb "hasOwnProperty") (map fst ps))
    (existsb (fun kv : string * value => shadows (snd kv)) ps).
  intros [] [] [] []; reflexivity.
Qed.

Lemma shadows_leaf v : isObject v = false -> shadows v = false.
Proof. now destruct v. Qed.

(** A loop over a sequence throws when one of the calls does. *)
Lemma mapM_spec {A B} (F : A -> result B) (sh : A -> bool) (G : A -> B) l :
  Forall (fun a => F a = if sh a then Throw TypeError else Ok (G a)) l ->
  mapM F l = if existsb sh l then Throw TypeError else Ok (map G l).
Proof.
  induction 1 as [|a l Ha _ IH]; simpl; [reflexivity|].
  rewrite Ha. destruct (sh a); simpl; [reflexivity|].
  rewrite IH. now destruct (existsb sh l).
Qed.

Section MapObject.

Variable f : string -> string.
Variable obj : object.

Local Abbreviation loop :=
  (fun (res : result object) (kv : string * value) =>
     bind res (fun result =>
     bind (hasOwnProperty obj (fst kv)) (fun own =>
     if own
     then bind (deepMapKeys f (snd kv)) (fun x =>
          Ok (set (f (fst kv)) x result))
     else Ok result))).

Lemma loop_thrown l e : fold_left loop l (Throw e) = Throw e.
Proof. induction l as [|kv l IH]; simpl; [reflexivity | exact IH]. Qed.

(** With the method shadowed, the first turn of the loop throws. *)
Lemma loop_shadowed l acc :
  has "hasOwnProperty" obj = true -> l <> [] ->
  fold_left loop l (Ok acc) = Throw TypeError.
Proof.
  intros H Hne. destruct l as [|kv l]; [congruence|]. cbn [fold_left].
  replace (loop (Ok acc) kv) with (@Throw object TypeError);
    [apply loop_thrown|].
  cbn [bind]. unfold hasOwnProperty. now rewrite H.
Qed.

(** Otherwise the loop renames the properties in turn, and throws when
    the renaming of one of the values does. *)
Lemma loop_spec l :
  has "hasOwnProperty" obj = false ->
  (forall kv, In kv l -> In kv obj) ->
  Forall (fun kv => deepMapKeys f (snd kv)
                    = if shadows (snd kv) then Throw TypeError
                      else Ok (renameKeys f (snd kv))) l ->
  forall acc,
    fold_left loop l (Ok acc)
    = if existsb (fun kv => shadows (snd kv)) l then Throw TypeError
      else Ok (fold_left
                 (fun result kv =>
                    set (f (fst kv)) (renameKeys f (snd kv)) result) l acc).
Proof.
  intros Hno Hin H. induction H as [|kv l Hkv _ IH]; intros acc;
    [reflexivity|].
  cbn [fold_left existsb].
  replace (loop (Ok acc) kv)
    with (if shadows (snd kv) then @Throw object TypeError
          else Ok (set (f (fst kv)) (renameKeys f (snd kv)) acc)).
  - destruct (shadows (snd kv)); cbn [orb].
    + apply loop_thrown.
    + apply IH. intros kv' H'. apply Hin. now right.
  - cbn [bind]. unfold hasOwnProperty. rewrite Hno.
    assert (has (fst kv) obj = true) as ->.
    { apply has_true. apply in_map. apply Hin. now left. }
    cbn [bind]. rewrite Hkv. now destruct (shadows (snd kv)).
Qed.

End MapObject.

(** [deepMapKeys] throws a [TypeError] exactly when a mapping of the
    value has an own property named [hasOwnProperty], and returns the
    renamed copy otherwise. *)
Lemma deepMapKeys_spec f v :
  deepMapKeys f v
  = if shadows v then Throw TypeError else Ok (renameKeys f v).
Proof.
  induction v as [| | | | |l IH|ps IH] using value_ind; try reflexivity.
  - cbn [deepMapKeys renameKeys]. rewrite (mapM_spec _ _ _ _ IH), shadows_arr.
    now destruct (existsb shadows l).
  - cbn [deepMapKeys renameKeys]. rewrite shadows_obj.
    destruct (has "hasOwnProperty" ps) eqn:E.
    + rewrite loop_shadowed; [reflexivity | assumption |].
      intros ->. discriminate.
    + rewrite loop_spec by auto. simpl.
      now destruct (existsb _ ps).
Qed.

Lemma renameKeys_is_mapping f ps :
  exists target, renameKeys f (VObj ps) = VObj target.
Proof. eexists. reflexivity. Qed.

(** [makeFlatStartCaseObject] throws and returns on the same inputs. *)
Lemma makeFlatStartCaseObject_spec startCase x :
  makeFlatStartCaseObject startCase x
  = if shadows x then Throw TypeError else Ok (flatStartCase startCase x).
Proof.
  induction x as [| | | | |l IH|ps IH] using value_ind; try reflexivity.
  - cbn [makeFlatStartCaseObject flatStartCase].
    rewrite (mapM_spec _ shadows
               (fun property => if isObject property
                                then flatStartCase startCase property
                                else property)).
    + rewrite shadows_arr. now destruct (existsb shadows l).
    + revert IH. apply Forall_impl. intros a Ha.
      destruct (isObject a) eqn:E; [exact Ha|].
      now rewrite shadows_leaf.
  - cbn [makeFlatStartCaseObject flatStartCase]. rewrite deepMapKeys_spec.
    destruct (shadows (VObj ps)); reflexivity.
Qed.

Lemma makeFlatStartCaseObject_returns startCase x :
  shadows x = false ->
  makeFlatStartCaseObject startCase x = Ok (flatStartCase startCase x).
Proof. intros H. now rewrite makeFlatStartCaseObject_spec, H. Qed.

Lemma deepMapKeys_returns f v :
  shadows v = false -> deepMapKeys f v = Ok (renameKeys f v).
Proof. intros H. now rewrite deepMapKeys_spec, H. Qed.

Lemma deepMapKeys_Ok f v r :
  deepMapKeys f v = Ok r -> shadows v = false /\ r = renameKeys f v.
Proof.
  rewrite deepMapKeys_spec. destruct (shadows v); [discriminate|].
  intros E. now inversion E.
Qed.

Lemma makeFlatStartCaseObject_Ok startCase x r :
  makeFlatStartCaseObject startCase x = Ok r ->
  shadows x = false /\ r = flatStartCase startCase x.
Proof.
  rewrite makeFlatStartCaseObject_spec. destruct (shadows x); [discriminate|].
  intros E. now inversion E.
Qed.

(** A value reached by a path of keys shadows nothing if the value it
    is reached from does not. *)
Lemma shadows_get_path ks :
  forall x v, shadows x = false -> get_path x ks = Some v -> shadows v = false.
Proof.
  induction ks as [|k ks IH]; intros x v Hx Hget; simpl in Hget.
  - now inversion Hget; subst.
  - destruct x as [| | | | | |ps]; try discriminate.
    destruct (get k ps) as [x1|] eqn:E; [|discriminate].
    apply (IH x1 v); [|assumption].
    rewrite shadows_obj in Hx. apply orb_false_iff in Hx.
    destruct Hx as [_ Hx]. apply get_In in E.
    destruct (shadows x1) eqn:S; [|reflexivity].
    assert (existsb (fun kv => shadows (snd kv)) ps = true) as C; [|congruence].
    apply existsb_exists. now exists (k, x1).
Qed.

End ThrowFacts.

(** ** The last writer *)

Module LastWriterFacts.
Import Obj ObjFacts StoreFacts FlattenerFacts FlatFacts RenameFacts.
Import CommuteFacts.

Lemma get_split k x ps :
  get k ps = Some x ->
  exists a b, ps = a ++ (k, x) :: b /\ after k ps = keys b.
Proof.
  induction ps as [|[k' x'] ps IH]; simpl; [discriminate|].
  destruct (String.eqb_spec k k') as [<-|Hne].
  - intros E. inversion E; subst. now exists [], ps.
  - intros E. destruct (IH E) as (a & b & -> & Hb).
    now exists ((k', x') :: a), b.
Qed.

(** The property that is renamed last to a name is the one the renamed
    mapping has under that name. *)
Lemma get_renamed_props f k x ps :
  get k ps = Some x ->
  forallb (fun k2 => negb (String.eqb (f k2) (f k))) (after k ps) = true ->
  get (f k) (renamed_props f ps) = Some (renameKeys f x).
Proof.
  intros Hget Hlast. destruct (get_split _ _ _ Hget) as (a & b & -> & Hb).
  rewrite Hb in Hlast. unfold renamed_props. rewrite map_app. simpl.
  apply get_assign_last. unfold keys. rewrite map_map. simpl.
  intros Hin. apply in_map_iff in Hin. destruct Hin as ([k2 x2] & E & Hin).
  simpl in E. rewrite forallb_forall in Hlast.
  specialize (Hlast k2 (in_map fst _ _ Hin)).
  now rewrite E, String.eqb_refl in Hlast.
Qed.

Lemma last_path_with_spec key l p :
  last_path_with key l = Some p ->
  exists l1 v l2,
    l = l1 ++ (p, v) :: l2 /\ path_string "" p = key /\
    forall e, In e l2 -> path_string "" (fst e) <> key.
Proof.
  induction l as [|[q w] l IH]; simpl; [discriminate|].
  destruct (last_path_with key l) as [p'|] eqn:E.
  - intros H. inversion H; subst. destruct (IH eq_refl) as (l1 & v & l2 & -> & Hk & Hl).
    now exists ((q, w) :: l1), v, l2.
  - destruct (String.eqb_spec (path_string "" q) key) as [Hk|Hk];
      [|discriminate].
    intros H. inversion H; subst. exists [], w, l. repeat split.
    clear IH H. induction l as [|[q' w'] l IHl]; [intros e []|].
    simpl in E. destruct (last_path_with (path_string "" p) l); [discriminate|].
    destruct (String.eqb_spec (path_string "" q') (path_string "" p));
      [discriminate|].
    intros e [<-|He]; [assumption | now apply IHl].
Qed.

(** What flattening meets last under a path-string is what the output
    holds under it. *)
Lemma flatten_last key o p :
  last_path_with key (leaves o) = Some p ->
  exists v, In (p, v) (leaves o) /\ get key (Flat.flatten o) = Some v.
Proof.
  intros H. apply last_path_with_spec in H.
  destruct H as (l1 & v & l2 & E & Hk & Hl).
  exists v. split; [rewrite E; apply in_or_app; right; now left|].
  rewrite flatten_assign, E. unfold entries. rewrite map_app. simpl.
  rewrite Hk. apply get_assign_last.
  unfold keys. rewrite map_map. simpl. intros Hin.
  apply in_map_iff in Hin. destruct Hin as (e & He & Hin).
  now apply (Hl e Hin).
Qed.

Lemma wf_renamed_props f ps : wf_value (VObj (renamed_props f ps)) = true.
Proof. rewrite <- renameKeys_renamed. apply wf_renameKeys. Qed.

End LastWriterFacts.

Section LastWriter.
Import Obj ObjFacts StoreFacts FlattenerFacts FlatFacts RenameFacts.
Import CommuteFacts LastWriterFacts.

Variable startCase : string -> string.

Local Abbreviation rename := (transformKey startCase).

(** A value reached by a key path on which each key is renamed last is
    reached, renamed, by the renamed key path in the renamed value. *)
Lemma get_path_renamed ks :
  forall x v,
    get_path x ks = Some v ->
    last_renamed startCase x ks = true ->
    get_path (renameKeys rename x) (map rename ks)
    = Some (renameKeys rename v).
Proof.
  induction ks as [|k ks IH]; intros x v Hget Hlast.
  - simpl in *. now inversion Hget.
  - cbn [get_path] in Hget. destruct x as [| | | | | |ps]; try discriminate.
    destruct (get k ps) as [x1|] eqn:E; [|discriminate].
    cbn [last_renamed] in Hlast. rewrite E in Hlast.
    apply andb_true_iff in Hlast. destruct Hlast as [Hk Hrest].
    rewrite renameKeys_renamed. cbn [map get_path].
    rewrite (get_renamed_props rename k x1 ps E Hk).
    now apply IH.
Qed.

(** The value at a key path of the input, its keys renamed, is what the
    output holds under the path-string of the key path, when each key
    on the path is renamed last and the renamed key path is the last
    one flattening meets with that path-string. *)
Lemma flatten_holds ps ks v :
  get_path (VObj ps) ks = Some v ->
  last_renamed startCase (VObj ps) ks = true ->
  last_path_with (rendered startCase ks) (leaves (renamed_props rename ps))
  = Some (map rename ks) ->
  get (rendered startCase ks) (Flat.flatten (renamed_props rename ps))
  = Some (renameKeys rename v).
Proof.
  intros Hget Hlast Hmet.
  destruct (flatten_last _ _ _ Hmet) as (val & Hin & Hout).
  rewrite Hout. f_equal.
  apply (leaves_lookup _ _ _ (wf_renamed_props rename ps)) in Hin.
  destruct Hin as (_ & Hval & _).
  pose proof (get_path_renamed ks _ _ Hget Hlast) as Hren.
  rewrite renameKeys_renamed in Hren. congruence.
Qed.

End LastWriter.

(** * The flattener, as the program runs *)

Section FlattenerClaims.
Import Obj ObjFacts StoreFacts FlattenerFacts FlatFacts RenameFacts.
Import PathStringFacts CommuteFacts ThrowFacts LastWriterFacts.

Variable startCase : string -> string.

Local Abbreviation transform := (makeFlatStartCaseObject startCase).
Local Abbreviation rename := (transformKey startCase).

Lemma transform_returns_mapping ps :
  shadows (VObj ps) = false ->
  deepMapKeys rename (VObj ps) = Ok (VObj (renamed_props rename ps)) /\
  transform (VObj ps) = Ok (VObj (Flat.flatten (renamed_props rename ps))).
Proof.
  intros H. split.
  - now rewrite deepMapKeys_returns, renameKeys_renamed.
  - now rewrite makeFlatStartCaseObject_returns, transform_mapping.
Qed.

Lemma transformed_keys ps T :
  deepMapKeys rename (VObj ps) = Ok (VObj T) ->
  shadows (VObj ps) = false /\ T = renamed_props rename ps.
Proof.
  intros H. apply deepMapKeys_Ok in H. destruct H as [Hs E].
  split; [assumption|]. rewrite renameKeys_renamed in E. now inversion E.
Qed.

(** C7: the flattener returns an absent input as it is, and wraps a
    scalar input (string, number, boolean or null) [x] as the one-entry
    mapping of [Value] to [x]. *)
Theorem flattener_absent_and_scalars :
  transform VUndefined = Ok VUndefined /\
  forall x, is_scalar x = true -> transform x = Ok (VObj [("Value", x)]).
Proof.
  split; [reflexivity|]. intros [] H; try discriminate; reflexivity.
Qed.

(** C4: for all scalars [s] and [r], the mapping
    [{ image: { size: s, recommendedSize: r } }] is flattened to
    [{ "Image Size": s, "Image Recommended Size": r }]. *)
Theorem flattener_image_example s r :
  startCase "image" = "Image" ->
  startCase "size" = "Size" ->
  startCase "recommendedSize" = "Recommended Size" ->
  is_scalar s = true -> is_scalar r = true ->
  transform (example_image s r)
  = Ok (VObj [("Image Size", s); ("Image Recommended Size", r)]).
Proof.
  intros Hi Hs Hr Ss Sr. rewrite makeFlatStartCaseObject_returns.
  - f_equal. now apply image_example_pure.
  - destruct s; try discriminate; destruct r; try discriminate; reflexivity.
Qed.

(** C6: applied to a sequence none of whose mappings has an own
    property named [hasOwnProperty], the flattener returns a sequence of
    the same length in which every element that is a mapping or a
    sequence is replaced by its transformation and every other element
    is kept, for instance [[{a:1}, 2]] becomes [[{A: 1}, 2]]; applied to
    any other sequence, for instance [[{hasOwnProperty: 1}]], it throws
    a [TypeError] and returns nothing. *)
Theorem flattener_sequences :
  (forall arr,
     shadows (VArr arr) = false ->
     exists out,
       transform (VArr arr) = Ok (VArr out) /\
       List.length out = List.length arr /\
       forall i e, nth_error arr i = Some e ->
         exists o, nth_error out i = Some o /\
                   if isObject e then transform e = Ok o else o = e) /\
  (forall arr,
     shadows (VArr arr) = true -> transform (VArr arr) = Throw TypeError) /\
  (startCase "a" = "A" ->
   transform (VArr [VObj [("a", VNum 1)]; VNum 2])
   = Ok (VArr [VObj [("A", VNum 1)]; VNum 2])) /\
  transform example_shadow_sequence = Throw TypeError.
Proof.
  split; [|split; [|split]].
  - intros arr Hs. eexists. split; [|split].
    + rewrite makeFlatStartCaseObject_returns by assumption. reflexivity.
    + apply length_map.
    + intros i e He. rewrite nth_error_map, He. eexists.
      split; [reflexivity|].
      destruct (isObject e) eqn:E; [|reflexivity].
      apply makeFlatStartCaseObject_returns.
      rewrite shadows_arr in Hs. destruct (shadows e) eqn:S; [|reflexivity].
      assert (existsb shadows arr = true) as C; [|congruence].
      apply existsb_exists. exists e. split; [|assumption].
      now apply nth_error_In in He.
  - intros arr Hs. now rewrite makeFlatStartCaseObject_spec, Hs.
  - intros H. vm_compute. now rewrite H.
  - reflexivity.
Qed.

(** C1, as amended: for every leaf value reachable in a mapping at a
    key path, when the renaming of the keys returns (no mapping has an
    own property named [hasOwnProperty]), the first key of the path is
    not renamed to the empty string, each key on the path is the last
    of its mapping that is renamed to its segment, and the renamed key
    path is the last one with its path-string that flattening meets,
    the output has exactly one entry whose key is the renamed segments
    joined by single spaces, and its value is that leaf. *)
Theorem flattener_leaf_entry ps k rest v T :
  get_path (VObj ps) (k :: rest) = Some v ->
  isObject v = false ->
  deepMapKeys rename (VObj ps) = Ok (VObj T) ->
  rename k <> "" ->
  last_renamed startCase (VObj ps) (k :: rest) = true ->
  last_path_with (rendered startCase (k :: rest)) (leaves T)
  = Some (map rename (k :: rest)) ->
  exists out,
    transform (VObj ps) = Ok (VObj out) /\
    In (String.concat " " (map rename (k :: rest)), v) out /\
    NoDup (keys out).
Proof.
  intros Hget Hleaf HT Hne Hlast Hmet.
  destruct (transformed_keys _ _ HT) as [Hs ->].
  exists (Flat.flatten (renamed_props rename ps)).
  split; [apply (transform_returns_mapping ps Hs)|].
  split; [|apply flatten_NoDup].
  apply get_In.
  replace (String.concat " " (map rename (k :: rest)))
    with (rendered startCase (k :: rest)).
  - rewrite (flatten_holds startCase ps _ v Hget Hlast Hmet).
    now rewrite renameKeys_leaf.
  - unfold rendered. rewrite path_string_joined. cbn [map skip_empty].
    now destruct (String.eqb_spec (rename k) "").
Qed.

(** C3, as amended: flattening a mapping none of whose mappings has an
    own property named [hasOwnProperty] returns a mapping; the value at
    a key path, of whatever branch, is in the output under the
    path-string of the path, its keys renamed, when each key on the
    path is the last of its mapping that is renamed to its segment and
    the renamed path is the last one with its path-string that
    flattening meets; and under that same condition a branch that is
    an empty mapping or is absent is not left out: the output has an
    entry for it, whose value is the empty mapping or the absent
    value. *)
Theorem flattener_empty_branches ps ks b :
  shadows (VObj ps) = false ->
  get_path (VObj ps) ks = Some b ->
  b = VObj [] \/ b = VUndefined ->
  exists T out,
    deepMapKeys rename (VObj ps) = Ok (VObj T) /\
    transform (VObj ps) = Ok (VObj out) /\
    (last_renamed startCase (VObj ps) ks = true ->
     last_path_with (rendered startCase ks) (leaves T)
     = Some (map rename ks) ->
     get (rendered startCase ks) out = Some b) /\
    forall ks' v',
      get_path (VObj ps) ks' = Some v' ->
      last_renamed startCase (VObj ps) ks' = true ->
      last_path_with (rendered startCase ks') (leaves T)
      = Some (map rename ks') ->
      exists v'',
        deepMapKeys rename v' = Ok v'' /\
        get (rendered startCase ks') out = Some v''.
Proof.
  intros Hs Hget Hb.
  exists (renamed_props rename ps), (Flat.flatten (renamed_props rename ps)).
  destruct (transform_returns_mapping ps Hs) as [HT Hout].
  split; [assumption|]. split; [assumption|]. split.
  - intros Hlast Hmet.
    rewrite (flatten_holds startCase ps _ b Hget Hlast Hmet).
    destruct Hb; subst; reflexivity.
  - intros ks' v' Hget' Hlast' Hmet'. exists (renameKeys rename v'). split.
    + apply deepMapKeys_returns. apply (shadows_get_path ks' _ _ Hs Hget').
    + apply (flatten_holds startCase ps _ v' Hget' Hlast' Hmet').
Qed.

(** C10, as amended: when the value at a key path of a mapping is a
    sequence, the renaming of the keys returns (no mapping has an own
    property named [hasOwnProperty]), each key on the path is the last
    of its mapping that is renamed to its segment, and the renamed key
    path is the last one with its path-string that flattening meets,
    the output holds under that path-string the sequence, with the keys
    of the mappings inside it renamed and nothing in it flattened; and
    every entry of the output is a stored value of the input, its keys
    renamed, under the path-string of a path of keys of nested
    mappings, so that no path-string extends into a sequence. *)
Theorem flattener_sequence_values ps ks arr T :
  wf_value (VObj ps) = true ->
  get_path (VObj ps) ks = Some (VArr arr) ->
  deepMapKeys rename (VObj ps) = Ok (VObj T) ->
  last_renamed startCase (VObj ps) ks = true ->
  last_path_with (rendered startCase ks) (leaves T) = Some (map rename ks) ->
  exists out arr',
    transform (VObj ps) = Ok (VObj out) /\
    deepMapKeys rename (VArr arr) = Ok (VArr arr') /\
    In (rendered startCase ks, VArr arr') out /\
    NoDup (keys out) /\
    forall key val,
      In (key, val) out ->
      exists p v,
        p <> [] /\ get_path (VObj ps) p = Some v /\ stored v = true /\
        key = rendered startCase p /\ deepMapKeys rename v = Ok val.
Proof.
  intros Hwf Hget HT Hlast Hmet.
  destruct (transformed_keys _ _ HT) as [Hs ->].
  exists (Flat.flatten (renamed_props rename ps)),
    (map (renameKeys rename) arr).
  split; [apply (transform_returns_mapping ps Hs)|]. split; [|split; [|split]].
  - rewrite deepMapKeys_returns; [reflexivity|].
    apply (shadows_get_path ks _ _ Hs Hget).
  - apply get_In. apply (flatten_holds startCase ps _ _ Hget Hlast Hmet).
  - apply flatten_NoDup.
  - intros key val Hin.
    apply (flatten_entries_inv startCase ps key val Hwf) in Hin.
    destruct Hin as (p & v & Hne & Hp & Hst & -> & ->).
    exists p, v. repeat split; try assumption.
    apply deepMapKeys_returns. apply (shadows_get_path p _ _ Hs Hp).
Qed.

End FlattenerClaims.

Module ShadowFacts.
Import ThrowFacts.

Lemma shadows_In v : shadows v = true <-> In "hasOwnProperty" (all_keys v).
Proof.
  unfold shadows. rewrite existsb_exists. split.
  - intros (k & Hin & E). apply String.eqb_eq in E. now subst.
  - intros H. exists "hasOwnProperty". split; [assumption|apply String.eqb_refl].
Qed.

Lemma shadows_not_In v : shadows v = false <-> ~ In "hasOwnProperty" (all_keys v).
Proof. rewrite <- shadows_In. destruct (shadows v); split; congruence. Qed.

Lemma mapping_free_keys v : mapping_free v = true -> all_keys v = [].
Proof.
  induction v as [| | | | |l IH|ps IH] using value_ind; simpl;
    try reflexivity; try discriminate.
  intros H. rewrite forallb_forall in H.
  induction IH as [|a l Ha _ IHl]; simpl; [reflexivity|].
  rewrite Ha by (apply H; now left). simpl. apply IHl.
  intros x Hx. apply H. now right.
Qed.

Lemma mapping_free_shadows v : mapping_free v = true -> shadows v = false.
Proof. intros H. unfold shadows. now rewrite mapping_free_keys. Qed.

Lemma all_keys_rewrite g x :
  (forall a, isObject a = false -> isObject (g a) = false) ->
  all_keys (rewrite_leaves g x) = all_keys x.
Proof.
  intros g_leaf.
  assert (forall a, isObject a = false -> all_keys (g a) = []) as Hl.
  { intros a Ha. apply g_leaf in Ha. now destruct (g a). }
  induction x as [| | | | |l IH|ps IH] using value_ind; simpl;
    try (now apply Hl).
  - induction IH as [|a l Ha _ IHl]; simpl; [reflexivity|].
    now rewrite Ha, IHl.
  - induction IH as [|[k v] l Ha _ IHl]; simpl; [reflexivity|].
    simpl in Ha. now rewrite Ha, IHl.
Qed.

Lemma shadows_replaced a k v w b :
  shadows v = shadows w ->
  shadows (VObj (a ++ (k, v) :: b)) = shadows (VObj (a ++ (k, w) :: b)).
Proof.
  intros E. rewrite !shadows_obj. unfold Obj.has, Obj.keys.
  rewrite !map_app, !existsb_app. cbn [map fst snd existsb].
  now rewrite E.
Qed.

Lemma shadows_single k x :
  k <> "hasOwnProperty" -> isObject x = false ->
  shadows (VObj [(k, x)]) = false.
Proof.
  intros Hk Hx. rewrite shadows_cons, (shadows_leaf x Hx).
  destruct (String.eqb_spec "hasOwnProperty" k); [congruence | reflexivity].
Qed.

End ShadowFacts.

Section KeyRule.
Import Obj ObjFacts FlattenerFacts FlatFacts RenameFacts ThrowFacts ShadowFacts.
Import CommuteFacts.

Variable startCase : string -> string.

Local Abbreviation transform := (makeFlatStartCaseObject startCase).
Local Abbreviation rename := (transformKey startCase).

Lemma single_key k x :
  k <> "hasOwnProperty" -> isObject x = false ->
  transform (VObj [(k, x)]) = Ok (VObj [(rename k, x)]).
Proof.
  intros Hk Hx.
  rewrite makeFlatStartCaseObject_returns by now apply shadows_single.
  destruct x; try discriminate; reflexivity.
Qed.

Lemma nested_key k0 k x :
  k0 <> "hasOwnProperty" -> k <> "hasOwnProperty" -> isObject x = false ->
  transform (VObj [(k0, VObj [(k, x)])])
  = Ok (VObj [(path_string "" [rename k0; rename k], x)]).
Proof.
  intros H0 Hk Hx. rewrite makeFlatStartCaseObject_returns.
  - destruct x; try discriminate; reflexivity.
  - rewrite shadows_cons, (shadows_single k x Hk Hx).
    destruct (String.eqb_spec "hasOwnProperty" k0); [congruence | reflexivity].
Qed.

Lemma sequence_key k0 k x :
  k0 <> "hasOwnProperty" -> k <> "hasOwnProperty" -> isObject x = false ->
  transform (VObj [(k0, VArr [VObj [(k, x)]])])
  = Ok (VObj [(rename k0, VArr [VObj [(rename k, x)]])]).
Proof.
  intros H0 Hk Hx. rewrite makeFlatStartCaseObject_returns.
  - destruct x; try discriminate; reflexivity.
  - rewrite shadows_cons, shadows_arr. cbn [existsb].
    rewrite (shadows_single k x Hk Hx).
    destruct (String.eqb_spec "hasOwnProperty" k0); [congruence | reflexivity].
Qed.

Lemma renamed_sequence arr arr' :
  deepMapKeys rename (VArr arr) = Ok (VArr arr') ->
  Forall2 (fun e e' => deepMapKeys rename e = Ok e') arr arr'.
Proof.
  intros H. apply deepMapKeys_Ok in H. destruct H as [Hs E].
  simpl in E. inversion E; subst. clear E. rewrite shadows_arr in Hs.
  induction arr as [|e arr IH]; simpl; constructor.
  - apply deepMapKeys_returns. simpl in Hs. now apply orb_false_iff in Hs.
  - apply IH. simpl in Hs. now apply orb_false_iff in Hs.
Qed.

Lemma renamed_property ps T k x :
  deepMapKeys rename (VObj ps) = Ok (VObj T) ->
  get k ps = Some x ->
  (forall k2, In k2 (after k ps) -> rename k2 <> rename k) ->
  exists x', deepMapKeys rename x = Ok x' /\ get (rename k) T = Some x'.
Proof.
  intros HT Hget Hlast.
  apply deepMapKeys_Ok in HT. destruct HT as [Hs E].
  rewrite renameKeys_renamed in E. inversion E; subst. clear E.
  exists (renameKeys rename x). split.
  - apply deepMapKeys_returns.
    apply (shadows_get_path [k] (VObj ps) x Hs). simpl. now rewrite Hget.
  - apply LastWriterFacts.get_renamed_props; [assumption|].
    apply forallb_forall. intros k2 Hin. apply negb_true_iff.
    apply String.eqb_neq. now apply Hlast.
Qed.

Lemma renamed_path ps T ks v :
  deepMapKeys rename (VObj ps) = Ok (VObj T) ->
  get_path (VObj ps) ks = Some v ->
  last_renamed startCase (VObj ps) ks = true ->
  last_path_with (path_string "" (map rename ks)) (leaves T)
  = Some (map rename ks) ->
  exists out v',
    transform (VObj ps) = Ok (VObj out) /\
    deepMapKeys rename v = Ok v' /\
    get (path_string "" (map rename ks)) out = Some v'.
Proof.
  intros HT Hget Hlast Hmet.
  apply deepMapKeys_Ok in HT. destruct HT as [Hs E].
  rewrite renameKeys_renamed in E. inversion E; subst. clear E.
  exists (Flat.flatten (renamed_props rename ps)), (renameKeys rename v).
  split; [|split].
  - now rewrite makeFlatStartCaseObject_returns, transform_mapping.
  - apply deepMapKeys_returns. apply (shadows_get_path ks _ _ Hs Hget).
  - apply (flatten_holds startCase ps ks v Hget Hlast Hmet).
Qed.

Lemma output_keys ps out :
  wf_value (VObj ps) = true ->
  transform (VObj ps) = Ok (VObj out) ->
  forall key val,
    In (key, val) out ->
    exists p v,
      p <> [] /\ get_path (VObj ps) p = Some v /\
      key = path_string "" (map rename p) /\
      deepMapKeys rename v = Ok val /\
      forall k', In k' (all_keys val) ->
        exists k, In k (all_keys v) /\ k' = rename k.
Proof.
  intros Hwf Hout key val Hin.
  apply makeFlatStartCaseObject_Ok in Hout. destruct Hout as [Hs E].
  rewrite transform_mapping in E. inversion E; subst. clear E.
  apply (flatten_entries_inv startCase ps key val Hwf) in Hin.
  destruct Hin as (p & v & Hne & Hp & _ & -> & ->).
  exists p, v. repeat split; try assumption.
  - apply deepMapKeys_returns. apply (shadows_get_path p _ _ Hs Hp).
  - apply all_keys_renameKeys.
Qed.

Lemma regex_test_spec key :
  regex_test key = true <->
  key <> "" /\ Forall env_char (list_ascii_of_string key).
Proof.
  split.
  - intros H. unfold regex_test in H. apply andb_true_iff in H.
    destruct H as [Hne Hall]. split.
    + apply negb_true_iff in Hne. now apply String.eqb_neq.
    + apply all_chars_Forall in Hall. revert Hall. apply Forall_impl.
      intros c. apply is_env_char_spec.
  - intros [Hne Hall]. unfold regex_test. apply andb_true_iff. split.
    + now apply negb_true_iff, String.eqb_neq.
    + apply all_chars_Forall. revert Hall. apply Forall_impl.
      intros c. apply is_env_char_spec.
Qed.

(** C5: a key is kept as it is exactly when it consists of one or more
    characters that are upper-case ASCII letters or underscores, and any
    other key is converted to start case.  The flattener renames so
    the keys of the input at every depth: the key of a leaf, the keys
    above a leaf, which make its path-string, and the keys of the
    mappings held in sequences; the renaming pass renames so each
    property of each mapping (the last one renamed to a name being the
    one kept) and each element of each sequence; every key of the
    output is the path-string of keys so renamed, and every key inside
    a value of the output is a key so renamed; [{FOO_BAR: 1}] is
    returned unchanged.  Where a mapping has an own property named
    [hasOwnProperty] nothing is renamed: a [TypeError] is thrown. *)
Theorem flattener_key_rule :
  (forall key,
     regex_test key = true <->
     key <> "" /\ Forall env_char (list_ascii_of_string key)) /\
  (forall key, regex_test key = true -> rename key = key) /\
  (forall key, regex_test key = false -> rename key = startCase key) /\
  (forall key x,
     key <> "hasOwnProperty" -> isObject x = false ->
     transform (VObj [(key, x)])
     = Ok (VObj [(if regex_test key then key else startCase key, x)])) /\
  (forall key0 key x,
     key0 <> "hasOwnProperty" -> key <> "hasOwnProperty" ->
     isObject x = false ->
     transform (VObj [(key0, VObj [(key, x)])])
     = Ok (VObj [(path_string "" [rename key0; rename key], x)])) /\
  (forall key0 key x,
     key0 <> "hasOwnProperty" -> key <> "hasOwnProperty" ->
     isObject x = false ->
     transform (VObj [(key0, VArr [VObj [(key, x)]])])
     = Ok (VObj [(rename key0, VArr [VObj [(rename key, x)]])])) /\
  (forall arr arr',
     deepMapKeys rename (VArr arr) = Ok (VArr arr') ->
     Forall2 (fun e e' => deepMapKeys rename e = Ok e') arr arr') /\
  (forall ps T k x,
     deepMapKeys rename (VObj ps) = Ok (VObj T) ->
     get k ps = Some x ->
     (forall k2, In k2 (after k ps) -> rename k2 <> rename k) ->
     exists x', deepMapKeys rename x = Ok x' /\ get (rename k) T = Some x') /\
  (forall ps T ks v,
     deepMapKeys rename (VObj ps) = Ok (VObj T) ->
     get_path (VObj ps) ks = Some v ->
     last_renamed startCase (VObj ps) ks = true ->
     last_path_with (path_string "" (map rename ks)) (leaves T)
     = Some (map rename ks) ->
     exists out v',
       transform (VObj ps) = Ok (VObj out) /\
       deepMapKeys rename v = Ok v' /\
       get (path_string "" (map rename ks)) out = Some v') /\
  (forall ps out,
     wf_value (VObj ps) = true ->
     transform (VObj ps) = Ok (VObj out) ->
     forall key val,
       In (key, val) out ->
       exists p v,
         p <> [] /\ get_path (VObj ps) p = Some v /\
         key = path_string "" (map rename p) /\
         deepMapKeys rename v = Ok val /\
         forall k', In k' (all_keys val) ->
           exists k, In k (all_keys v) /\ k' = rename k) /\
  transform (VObj [("FOO_BAR", VNum 1)]) = Ok (VObj [("FOO_BAR", VNum 1)]) /\
  transform example_shadow = Throw TypeError.
Proof.
  split; [exact regex_test_spec|].
  split; [intros key H; unfold transformKey; now rewrite H|].
  split; [intros key H; unfold transformKey; now rewrite H|].
  split; [exact single_key|].
  split; [exact nested_key|].
  split; [exact sequence_key|].
  split; [exact renamed_sequence|].
  split; [exact renamed_property|].
  split; [exact renamed_path|].
  split; [exact output_keys|].
  split; reflexivity.
Qed.

End KeyRule.

(** ** Further properties of the flattener, as the program runs *)

Section FlattenerExtras.
Import Obj ObjFacts StoreFacts FlattenerFacts FlatFacts RenameFacts.
Import FlatShapeFacts CommuteFacts ThrowFacts ShadowFacts AnonymizerFacts.

Variable startCase : string -> string.

Local Abbreviation transform := (makeFlatStartCaseObject startCase).
Local Abbreviation rename := (transformKey startCase).

(** X13: the flattener throws a [TypeError] exactly on the inputs in
    which a mapping, at any depth and also inside sequences, has an own
    property named [hasOwnProperty]; on every other input it returns a
    value. *)
Theorem flattener_throws_exactly x :
  (In "hasOwnProperty" (all_keys x) -> transform x = Throw TypeError) /\
  (~ In "hasOwnProperty" (all_keys x) -> exists r, transform x = Ok r).
Proof.
  rewrite makeFlatStartCaseObject_spec. split.
  - intros H. apply shadows_In in H. now rewrite H.
  - intros H. apply shadows_not_In in H. rewrite H. now eexists.
Qed.

(** X1: on an input that is neither absent nor a sequence and in which
    no mapping has an own property named [hasOwnProperty], the result
    is a mapping of one level: its keys are distinct and none of its
    values is a mapping with properties. *)
Theorem flattener_result_is_flat x :
  isUndefined x = false -> isArray x = false -> shadows x = false ->
  exists out,
    transform x = Ok (VObj out) /\
    NoDup (keys out) /\
    Forall (fun kv => stored (snd kv) = true) out.
Proof.
  intros Hu Ha Hs.
  destruct (result_is_flat_pure startCase x Hu Ha) as (out & E & H).
  exists out. split; [|exact H].
  now rewrite makeFlatStartCaseObject_returns, E.
Qed.

(** X2: in a mapping whose values are all leaves, sequences or empty
    mappings and in which no mapping has an own property named
    [hasOwnProperty], of the keys renamed to one name the last one
    wins: the output holds under the renamed key the value, its keys
    renamed, of the last property so renamed. *)
Theorem flattener_last_writer a k v b :
  shadows (VObj (a ++ (k, v) :: b)) = false ->
  Forall (fun kv => stored (snd kv) = true) (a ++ (k, v) :: b) ->
  (forall k2, In k2 (keys b) -> rename k2 <> rename k) ->
  exists out v',
    transform (VObj (a ++ (k, v) :: b)) = Ok (VObj out) /\
    deepMapKeys rename v = Ok v' /\
    get (rename k) out = Some v'.
Proof.
  intros Hs Hst Hlast.
  destruct (last_writer_pure startCase a k v b Hst Hlast) as (out & E & H).
  exists out, (renameKeys rename v). split; [|split; [|exact H]].
  - now rewrite makeFlatStartCaseObject_returns, E.
  - apply deepMapKeys_returns.
    rewrite shadows_obj in Hs. apply orb_false_iff in Hs.
    destruct Hs as [_ Hs]. rewrite existsb_app in Hs.
    apply orb_false_iff in Hs. destruct Hs as [_ Hs]. simpl in Hs.
    now apply orb_false_iff in Hs.
Qed.

Lemma env_mapping_shadows ps :
  Forall (fun kv => regex_test (fst kv) = true /\
                    mapping_free (snd kv) = true) ps ->
  shadows (VObj ps) = false.
Proof.
  induction 1 as [|[k x] ps [Hk Hx] _ IH]; [reflexivity|].
  rewrite shadows_cons, IH, (mapping_free_shadows x Hx). simpl in Hk.
  destruct (String.eqb_spec "hasOwnProperty" k) as [<-|]; [|reflexivity].
  discriminate.
Qed.

(** X3: a mapping whose keys are all of the environment-variable style
    and whose values hold no mapping is returned as it is. *)
Theorem flattener_keeps_env_mapping ps :
  wf_value (VObj ps) = true ->
  Forall (fun kv => regex_test (fst kv) = true /\
                    mapping_free (snd kv) = true) ps ->
  transform (VObj ps) = Ok (VObj ps).
Proof.
  intros Hwf Hall.
  rewrite makeFlatStartCaseObject_returns by now apply env_mapping_shadows.
  f_equal. now apply keeps_env_mapping_pure.
Qed.

(** X4: a sequence that holds no mapping at any depth, sequences of
    sequences included, is returned as it is: nothing is wrapped and
    nothing is flattened. *)
Theorem flattener_keeps_plain_sequences x :
  isArray x = true -> mapping_free x = true -> transform x = Ok x.
Proof.
  intros Ha Hf.
  rewrite makeFlatStartCaseObject_returns by now apply mapping_free_shadows.
  f_equal. now apply keeps_plain_sequences_pure.
Qed.

Variable host : Path.platform.

(** X5: anonymizing the flattened value is flattening the anonymized
    value: the two functions may be applied in either order, and where
    one order throws the other does. *)
Theorem anonymize_flatten_commute x :
  wf_value x = true ->
  result_map (hideAbsolutePathsInObject host) (transform x)
  = transform (hideAbsolutePathsInObject host x).
Proof.
  intros Hwf. rewrite !makeFlatStartCaseObject_spec.
  assert (shadows (hideAbsolutePathsInObject host x) = shadows x) as ->.
  { rewrite (hideAbsolutePathsInObject_rewrite host x Hwf). unfold shadows.
    rewrite all_keys_rewrite; [reflexivity | apply hideValue_leaf]. }
  destruct (shadows x); [reflexivity|]. cbn [result_map bind]. f_equal.
  now apply commute_pure.
Qed.

(** X9: a mapping in which no mapping has an own property named
    [hasOwnProperty], whose values are all leaves, sequences or empty
    mappings, and whose renamed keys are distinct and stay in
    enumeration order, is returned property by property in the same
    order, each key renamed and each value renamed inside. *)
Theorem flattener_flat_mapping ps :
  shadows (VObj ps) = false ->
  Forall (fun kv => stored (snd kv) = true) ps ->
  distinct (map rename (keys ps)) = true ->
  ordered (map rename (keys ps)) = true ->
  exists out,
    transform (VObj ps) = Ok (VObj out) /\
    Forall2 (fun kv e => fst e = rename (fst kv) /\
                         deepMapKeys rename (snd kv) = Ok (snd e)) ps out.
Proof.
  intros Hs Hst Hd Ho.
  exists (map (fun kv => (rename (fst kv), renameKeys rename (snd kv))) ps).
  split.
  - rewrite makeFlatStartCaseObject_returns by assumption. f_equal.
    apply flat_mapping_pure; [assumption|].
    unfold wf, keys in *. rewrite map_map in *. simpl.
    now rewrite Hd, Ho.
  - rewrite shadows_obj in Hs. apply orb_false_iff in Hs.
    destruct Hs as [_ Hs]. clear Hst Hd Ho.
    induction ps as [|kv ps IH]; simpl; constructor.
    + split; [reflexivity|]. apply deepMapKeys_returns.
      simpl in Hs. now apply orb_false_iff in Hs.
    + apply IH. simpl in Hs. now apply orb_false_iff in Hs.
Qed.

(** X12: when a later key of the same mapping is renamed like an
    earlier one, the value of the earlier one, leaf or whole sub-tree,
    has no effect on the result, as long as no mapping in it has an own
    property named [hasOwnProperty]. *)
Theorem flattener_overwritten_value_is_lost a k v w b k' v' c :
  transformKey startCase k = transformKey startCase k' ->
  shadows v = false -> shadows w = false ->
  makeFlatStartCaseObject startCase
    (VObj (a ++ (k, v) :: b ++ (k', v') :: c))
  = makeFlatStartCaseObject startCase
      (VObj (a ++ (k, w) :: b ++ (k', v') :: c)).
Proof.
  intros E Hv Hw. rewrite !makeFlatStartCaseObject_spec.
  rewrite (shadows_replaced a k v w) by congruence.
  destruct (shadows (VObj (a ++ (k, w) :: b ++ (k', v') :: c)));
    [reflexivity|]. f_equal.
  now apply overwritten_value_pure.
Qed.

End FlattenerExtras.

(** * The statements at concrete inputs *)

Lemma flattener_absent_and_scalars_witness :
  is_scalar (VNum 5) = true /\
  flat_start_case (VNum 5) = Ok (VObj [("Value", VNum 5)]).
Proof.
  split; [reflexivity|].
  apply (proj2 (flattener_absent_and_scalars StartCase.startCase) (VNum 5)).
  reflexivity.
Defined.

Lemma flattener_sequences_witness :
  StartCase.startCase "a" = "A" /\
  flat_start_case (VArr [VObj [("a", VNum 1)]; VNum 2])
  = Ok (VArr [VObj [("A", VNum 1)]; VNum 2]).
Proof.
  split; [reflexivity|].
  apply (proj1 (proj2 (proj2 (flattener_sequences StartCase.startCase)))).
  reflexivity.
Defined.

Lemma flattener_key_rule_witness :
  "fooBar" <> "hasOwnProperty" /\
  flat_start_case (VObj [("fooBar", VNum 1)])
  = Ok (VObj [("Foo Bar", VNum 1)]).
Proof.
  split; [discriminate|].
  apply (proj1 (proj2 (proj2 (proj2
           (flattener_key_rule StartCase.startCase)))) "fooBar" (VNum 1));
    [discriminate | reflexivity].
Defined.

Lemma flattener_image_example_witness :
  is_scalar (VNum 10000000000) = true /\
  flat_start_case (example_image (VNum 10000000000) (VNum 10000000000))
  = Ok (VObj [("Image Size", VNum 10000000000);
              ("Image Recommended Size", VNum 10000000000)]).
Proof.
  split; [reflexivity|].
  apply (flattener_image_example StartCase.startCase); reflexivity.
Defined.

(** At [{a: 1, A: 2}] the key [A] is the last one renamed to [A], so
    that its leaf is in the output. *)
Lemma flattener_leaf_entry_witness :
  get_path example_clash ["A"] = Some (VNum 2) /\
  exists out,
    flat_start_case example_clash = Ok (VObj out) /\
    In ("A", VNum 2) out /\
    NoDup (Obj.keys out).
Proof.
  split; [reflexivity|].
  apply (flattener_leaf_entry StartCase.startCase
           [("a", VNum 1); ("A", VNum 2)] "A" [] (VNum 2) [("A", VNum 2)]);
    (reflexivity || discriminate).
Defined.

(** C1 fails where two keys are renamed alike, [{a: 1, A: 2}]: the one
    entry under [A] holds 2, and the leaf 1 at [a] is lost.  It fails
    also where the first renamed key is empty, [{"": {a: 1}}]: the leaf
    is stored under [A] and not under the space-joined [ A]; and where
    a mapping has an own property named [hasOwnProperty]: nothing is
    returned. *)
Lemma flattener_leaf_entry_counterexample :
  (get_path example_clash ["a"] = Some (VNum 1) /\
   String.concat " " (map (transformKey StartCase.startCase) ["a"]) = "A" /\
   flat_start_case example_clash = Ok (VObj [("A", VNum 2)]) /\
   ~ In ("A", VNum 1) [("A", VNum 2)]) /\
  (get_path example_empty_key [""; "a"] = Some (VNum 1) /\
   String.concat " " (map (transformKey StartCase.startCase) [""; "a"]) = " A" /\
   flat_start_case example_empty_key = Ok (VObj [("A", VNum 1)]) /\
   ~ In (" A", VNum 1) [("A", VNum 1)]) /\
  (get_path example_shadow ["hasOwnProperty"] = Some (VNum 1) /\
   flat_start_case example_shadow = Throw TypeError).
Proof.
  repeat split; try reflexivity; intros [H|[]]; discriminate.
Qed.

Lemma flattener_empty_branches_witness :
  exists T out,
    deepMapKeys (transformKey StartCase.startCase) example_branches
    = Ok (VObj T) /\
    flat_start_case example_branches = Ok (VObj out) /\
    (last_renamed StartCase.startCase example_branches ["B"] = true ->
     last_path_with (rendered StartCase.startCase ["B"]) (leaves T)
     = Some (map (transformKey StartCase.startCase) ["B"]) ->
     Obj.get (rendered StartCase.startCase ["B"]) out = Some (VObj [])) /\
    forall ks' v',
      get_path example_branches ks' = Some v' ->
      last_renamed StartCase.startCase example_branches ks' = true ->
      last_path_with (rendered StartCase.startCase ks') (leaves T)
      = Some (map (transformKey StartCase.startCase) ks') ->
      exists v'',
        deepMapKeys (transformKey StartCase.startCase) v' = Ok v'' /\
        Obj.get (rendered StartCase.startCase ks') out = Some v''.
Proof.
  apply (flattener_empty_branches StartCase.startCase
           [("A", VUndefined); ("B", VObj []); ("c", VNum 3)] ["B"] (VObj []));
    [reflexivity | reflexivity | now left].
Defined.

(** C3 fails at [{A: undefined, B: {}, c: 3}]: the absent branch and
    the empty branch both have an entry in the output. *)
Lemma flattener_empty_branches_counterexample :
  flat_start_case example_branches
  = Ok (VObj [("A", VUndefined); ("B", VObj []); ("C", VNum 3)]) /\
  Obj.has "A" [("A", VUndefined); ("B", VObj []); ("C", VNum 3)] = true /\
  Obj.has "B" [("A", VUndefined); ("B", VObj []); ("C", VNum 3)] = true.
Proof. repeat split. Qed.

(** At [{a: 2, A: [1]}] the key [A] is the last one renamed to [A], so
    that its sequence is in the output. *)
Lemma flattener_sequence_values_witness :
  get_path (VObj [("a", VNum 2); ("A", VArr [VNum 1])]) ["A"]
  = Some (VArr [VNum 1]) /\
  exists out arr',
    flat_start_case (VObj [("a", VNum 2); ("A", VArr [VNum 1])])
    = Ok (VObj out) /\
    deepMapKeys (transformKey StartCase.startCase) (VArr [VNum 1])
    = Ok (VArr arr') /\
    In (rendered StartCase.startCase ["A"], VArr arr') out /\
    NoDup (Obj.keys out) /\
    forall key val,
      In (key, val) out ->
      exists p v,
        p <> [] /\
        get_path (VObj [("a", VNum 2); ("A", VArr [VNum 1])]) p = Some v /\
        stored v = true /\
        key = rendered StartCase.startCase p /\
        deepMapKeys (transformKey StartCase.startCase) v = Ok val.
Proof.
  split; [reflexivity|].
  apply (flattener_sequence_values StartCase.startCase
           [("a", VNum 2); ("A", VArr [VNum 1])] ["A"] [VNum 1]
           [("A", VArr [VNum 1])]); reflexivity.
Defined.

(** C10 fails at [{a: [1], A: 2}]: the output has no entry that holds
    the sequence. *)
Lemma flattener_sequence_values_counterexample :
  get_path example_sequence_clash ["a"] = Some (VArr [VNum 1]) /\
  rendered StartCase.startCase ["a"] = "A" /\
  flat_start_case example_sequence_clash = Ok (VObj [("A", VNum 2)]) /\
  ~ In ("A", VArr [VNum 1]) [("A", VNum 2)].
Proof.
  repeat split; try reflexivity. intros [H|[]]; discriminate.
Qed.

Lemma flattener_throws_exactly_witness :
  In "hasOwnProperty" (all_keys example_shadow_sequence) /\
  flat_start_case example_shadow_sequence = Throw TypeError.
Proof.
  split; [now left|].
  apply (proj1 (flattener_throws_exactly StartCase.startCase
                  example_shadow_sequence)). now left.
Defined.

Lemma flattener_result_is_flat_witness :
  exists out,
    flat_start_case (example_image (VNum 1) (VStr "x")) = Ok (VObj out) /\
    NoDup (Obj.keys out) /\
    Forall (fun kv => stored (snd kv) = true) out.
Proof.
  apply (flattener_result_is_flat StartCase.startCase
           (example_image (VNum 1) (VStr "x"))); reflexivity.
Defined.

Lemma flattener_last_writer_witness :
  exists out v',
    flat_start_case (VObj [("a", VNum 1); ("A", VNum 2); ("b", VNum 3)])
    = Ok (VObj out) /\
    deepMapKeys (transformKey StartCase.startCase) (VNum 2) = Ok v' /\
    Obj.get "A" out = Some v'.
Proof.
  apply (flattener_last_writer StartCase.startCase
           [("a", VNum 1)] "A" (VNum 2) [("b", VNum 3)]).
  - reflexivity.
  - repeat constructor.
  - intros k2 [<-|[]] H. vm_compute in H. discriminate.
Defined.

Lemma flattener_keeps_env_mapping_witness :
  flat_start_case example_env = Ok example_env.
Proof.
  apply (flattener_keeps_env_mapping StartCase.startCase).
  - reflexivity.
  - repeat constructor.
Defined.

Lemma flattener_keeps_plain_sequences_witness :
  flat_start_case example_nested_sequence = Ok example_nested_sequence.
Proof.
  apply (flattener_keeps_plain_sequences StartCase.startCase); reflexivity.
Defined.

Lemma flattener_flat_mapping_witness :
  exists out,
    flat_start_case
      (VObj [("fooBar", VNum 1); ("baz", VArr [VObj [("x", VNull)]])])
    = Ok (VObj out) /\
    Forall2 (fun kv e =>
               fst e = transformKey StartCase.startCase (fst kv) /\
               deepMapKeys (transformKey StartCase.startCase) (snd kv)
               = Ok (snd e))
      [("fooBar", VNum 1); ("baz", VArr [VObj [("x", VNull)]])] out.
Proof.
  apply (flattener_flat_mapping StartCase.startCase
           [("fooBar", VNum 1); ("baz", VArr [VObj [("x", VNull)]])]).
  - reflexivity.
  - repeat constructor.
  - reflexivity.
  - reflexivity.
Defined.

Lemma anonymize_flatten_commute_witness :
  wf_value example_paths = true /\
  result_map (hideAbsolutePathsInObject Path.posix)
    (flat_start_case example_paths)
  = flat_start_case (hideAbsolutePathsInObject Path.posix example_paths).
Proof.
  split; [reflexivity|].
  apply (anonymize_flatten_commute StartCase.startCase Path.posix).
  reflexivity.
Defined.

Lemma flattener_overwritten_value_is_lost_witness :
  flat_start_case
    (VObj ([] ++ ("a", VObj [("x", VNum 1)]) :: [("b", VNum 3)]
              ++ ("A", VObj [("y", VNum 2)]) :: []))
  = flat_start_case
      (VObj ([] ++ ("a", VNull) :: [("b", VNum 3)]
                ++ ("A", VObj [("y", VNum 2)]) :: [])).
Proof.
  apply (flattener_overwritten_value_is_lost StartCase.startCase
           [] "a" (VObj [("x", VNum 1)]) VNull [("b", VNum 3)]
           "A" (VObj [("y", VNum 2)]) []); reflexivity.
Defined.

Lemma anonymizer_leaves_no_absolute_path_witness :
  Forall (fun s => harmless Path.posix s = true)
    (string_leaves (hideAbsolutePathsInObject Path.posix example_paths)).
Proof.
  apply (anonymizer_leaves_no_absolute_path Path.posix example_paths).
  reflexivity.
Defined.

Lemma anonymizer_fixed_points_witness :
  hideAbsolutePathsInObject Path.win32 example_env = example_env
  <-> Forall (fun s => harmless Path.win32 s = true)
        (string_leaves example_env).
Proof.
  apply (anonymizer_fixed_points Path.win32 example_env). reflexivity.
Defined.

Lemma anonymizer_strings_are_parts_witness :
  Forall2 (fun s r => exists pre post, s = (pre ++ r ++ post)%string)
    (string_leaves example_paths)
    (string_leaves (hideAbsolutePathsInObject Path.win32 example_paths)).
Proof.
  apply (anonymizer_strings_are_parts Path.win32 example_paths). reflexivity.
Defined.

Lemma anonymizer_root_becomes_empty_witness :
  hideAbsolutePathsInObject Path.posix (VStr "//") = VStr "".
Proof.
  apply (anonymizer_root_becomes_empty Path.posix "//");
    [discriminate | reflexivity].
Defined.

Lemma anonymizer_keeps_last_name_witness :
  hideAbsolutePathsInObject Path.win32 (VStr "C:\Users\john\rpi.img\/")
  = VStr "rpi.img".
Proof.
  apply (anonymizer_keeps_last_name Path.win32
           "C:\Users\john" "\"%char "rpi.img" "\/");
    (reflexivity || discriminate).
Defined.
